(** * xbits: integer bit-manipulation primitives (xbits.h)

    A shallow embedding of the functions of [namespace xbits] and proofs of
    their arithmetic properties.

    The header is a set of templates over the built-in integer types.  A
    template parameter [T] becomes an argument of type [ity]; a C++ expression
    becomes a term over typed values [val], built with operators that perform
    the integral promotions and the usual arithmetic conversions of the
    language, so that every definition below can be read side by side with
    the body of the function it embeds.

    Conventions:
    - [int] has 32 bits and [std::size_t] 64, as on the platforms the header
      is written for; conversions between integer types are modular (C++20);
    - a function takes the mathematical values of its arguments and returns
      [Some] of the value of its result, or [None] when its evaluation runs
      into undefined behaviour or when the compiler rejects its
      instantiation;
    - a shift whose count is negative or not below the width of the promoted
      left operand is undefined ([None]);
    - unsigned arithmetic wraps around; what an overflowing signed operation
      does is a parameter of the development ([signed_overflow]): either it
      is undefined, or it wraps around in two's complement. *)

From Stdlib Require Import ZArith Bool List Lia.
Import ListNotations.
Local Open Scope Z_scope.

(** ** Integer types *)

(** The fixed-width types of <cstdint>.  [int] is the 32-bit type of every
    platform the header targets, [std::size_t] the 64-bit one. *)
Inductive ity : Set := I8 | U8 | I16 | U16 | I32 | U32 | I64 | U64.

Definition sizeof (T : ity) : nat :=
  match T with
  | I8 | U8 => 1 | I16 | U16 => 2 | I32 | U32 => 4 | I64 | U64 => 8
  end%nat.

Definition is_signed (T : ity) : bool :=
  match T with
  | I8 | I16 | I32 | I64 => true
  | U8 | U16 | U32 | U64 => false
  end.

Definition bits (T : ity) : Z :=
  match T with
  | I8 | U8 => 8 | I16 | U16 => 16 | I32 | U32 => 32 | I64 | U64 => 64
  end.

Definition int : ity := I32.
Definition uint32_t : ity := U32.
Definition uint64_t : ity := U64.
Definition size_t : ity := U64.

(** [byte_size_uint_t<T_SIZE_BYTES>]: element [T_SIZE_BYTES - 1] of the tuple
    of unsigned types.  [T_SIZE_BYTES] is a [std::size_t], so size 0 indexes
    far outside the tuple; sizes outside 1..8 do not compile ([None]). *)
Definition byte_size_uint_tuple : list ity :=
  [U8; U16; U32; U32; U64; U64; U64; U64].

Definition byte_size_uint_t (T_SIZE_BYTES : nat) : option ity :=
  match T_SIZE_BYTES with
  | O => None
  | S k => nth_error byte_size_uint_tuple k
  end.

(** [to_uint_t<T> = byte_size_uint_t<sizeof(T)>].  The lookup succeeds for
    every [T : ity]; the fallback branch is never taken. *)
Definition to_uint_t (T : ity) : ity :=
  match byte_size_uint_t (sizeof T) with
  | Some U => U
  | None => T
  end.

(** [byte_size_int_t<T_SIZE_BYTES>] and [to_int_t<T>]: the same lookup in the
    tuple of signed types. *)
Definition byte_size_int_tuple : list ity :=
  [I8; I16; I32; I32; I64; I64; I64; I64].

Definition byte_size_int_t (T_SIZE_BYTES : nat) : option ity :=
  match T_SIZE_BYTES with
  | O => None
  | S k => nth_error byte_size_int_tuple k
  end.

Definition to_int_t (T : ity) : ity :=
  match byte_size_int_t (sizeof T) with
  | Some S' => S'
  | None => T
  end.

(** The nested name [T::type] for an integer type [T].  The integer types
    are fundamental types and have no members: the name denotes no type, and
    a template that uses it is rejected for that [T] ([None]). *)
Definition member_type (T : ity) : option ity :=
  match T with
  | I8 | U8 | I16 | U16 | I32 | U32 | I64 | U64 => None
  end.

(** ** Values and conversions *)

Definition min_of (T : ity) : Z :=
  if is_signed T then - 2 ^ (bits T - 1) else 0.

Definition max_of (T : ity) : Z :=
  if is_signed T then 2 ^ (bits T - 1) - 1 else 2 ^ bits T - 1.

Definition in_range (T : ity) (z : Z) : Prop := min_of T <= z <= max_of T.

Definition in_rangeb (T : ity) (z : Z) : bool :=
  (min_of T <=? z) && (z <=? max_of T).

(** Conversion to an integer type: the unique value of the type congruent to
    the source modulo [2 ^ bits T]. *)
Definition conv (T : ity) (z : Z) : Z :=
  if is_signed T
  then (z + 2 ^ (bits T - 1)) mod 2 ^ bits T - 2 ^ (bits T - 1)
  else z mod 2 ^ bits T.

(** A typed value: the static type of a C++ expression and its value. *)
Record val : Set := V { ty : ity; num : Z }.

(** [static_cast<T>(e)], [T(e)] and implicit conversion to [T]. *)
Definition cast (T : ity) (v : val) : val := V T (conv T (num v)).

(** Binding of a by-value parameter of type [T] to an argument. *)
Definition param (T : ity) (z : Z) : val := V T (conv T z).

(** Integral promotion: types narrower than [int] are promoted to [int]. *)
Definition promote (T : ity) : ity :=
  if (sizeof T <? sizeof int)%nat then int else T.

(** Usual arithmetic conversions, on promoted operands: the operand of greater
    rank wins; at equal rank the unsigned one does. *)
Definition common (A B : ity) : ity :=
  let A' := promote A in
  let B' := promote B in
  if (sizeof A' <? sizeof B')%nat then B'
  else if (sizeof B' <? sizeof A')%nat then A'
  else if is_signed A' then B' else A'.

(** ** The error monad of undefined behaviour *)

Definition ret {A : Type} (a : A) : option A := Some a.

Definition bind {A B : Type} (m : option A) (k : A -> option B) : option B :=
  match m with
  | Some a => k a
  | None => None
  end.

Notation "x <- m ;; k" := (bind m (fun x => k))
  (at level 61, m at next level, right associativity).

(** What an overflowing signed addition, subtraction, multiplication or
    negation does.  The language leaves it undefined; the compilers the header
    is written for (MSVC, GCC, Clang) compute it in two's complement.  The
    development is parametric in the choice: [Undefined] makes such an
    operation fail, [Wraps] makes it wrap around. *)
Inductive signed_overflow : Set := Undefined | Wraps.

Section Xbits.

Variable sovf : signed_overflow.

(** ** Operators *)

(** Result of an arithmetic operation of type [C] whose exact value is [z]. *)
Definition arith (C : ity) (z : Z) : option val :=
  if is_signed C && negb (in_rangeb C z)
  then match sovf with
       | Undefined => None
       | Wraps => Some (V C (conv C z))
       end
  else Some (V C (conv C z)).

Definition lit (z : Z) : val := V int z.        (* literal of type int *)
Definition ulit (z : Z) : val := V U32 z.       (* literal of type unsigned int *)

Definition add (a b : val) : option val :=
  let C := common (ty a) (ty b) in
  arith C (conv C (num a) + conv C (num b)).

Definition sub (a b : val) : option val :=
  let C := common (ty a) (ty b) in
  arith C (conv C (num a) - conv C (num b)).

Definition mul (a b : val) : option val :=
  let C := common (ty a) (ty b) in
  arith C (conv C (num a) * conv C (num b)).

Definition neg (a : val) : option val :=
  let C := promote (ty a) in
  arith C (- conv C (num a)).

Definition band (a b : val) : val :=
  let C := common (ty a) (ty b) in
  V C (Z.land (conv C (num a)) (conv C (num b))).

Definition bor (a b : val) : val :=
  let C := common (ty a) (ty b) in
  V C (Z.lor (conv C (num a)) (conv C (num b))).

Definition bxor (a b : val) : val :=
  let C := common (ty a) (ty b) in
  V C (Z.lxor (conv C (num a)) (conv C (num b))).

(** Shifts: the result has the promoted type of the left operand; a negative
    count or one not below the width of that type is undefined.  As in C++20,
    a left shift is reduced modulo [2 ^ width] and a right shift of a negative
    value is arithmetic. *)
Definition shift_ok (C : ity) (n : val) : bool :=
  (0 <=? num n) && (num n <? bits C).

Definition shl (a n : val) : option val :=
  let C := promote (ty a) in
  if shift_ok C n
  then Some (V C (conv C (Z.shiftl (conv C (num a)) (num n))))
  else None.

Definition shr (a n : val) : option val :=
  let C := promote (ty a) in
  if shift_ok C n
  then Some (V C (Z.shiftr (conv C (num a)) (num n)))
  else None.

Definition eqv (a b : val) : bool :=
  let C := common (ty a) (ty b) in
  conv C (num a) =? conv C (num b).

(** [!e] and the conversion of [e] to [bool]. *)
Definition lnot (a : val) : bool := num a =? 0.

(** ** Power-of-two arithmetic *)

(** [SLeft]: [static_cast<T>(1 << n)]. *)
Definition SLeft (T : ity) (n : Z) : option Z :=
  let n := param T n in
  r <- shl (lit 1) n ;;
  ret (num (cast T r)).

(** [isPowTwo]: [!((x - 1) & x)]. *)
Definition isPowTwo (T : ity) (x : Z) : option bool :=
  let x := param T x in
  d <- sub x (lit 1) ;;
  ret (lnot (band d x)).

(** ** Alignment arithmetic *)

(** [Align]:
    [static_cast<T>( (unsigned_t(Address) + (static_cast<unsigned_t>(AlignTo) - 1))
                     & static_cast<unsigned_t>(-AlignTo) )]. *)
Definition Align (T : ity) (Address AlignTo : Z) : option Z :=
  let Address := param T Address in
  let AlignTo := param int AlignTo in
  let unsigned_t := to_uint_t T in
  a <- sub (cast unsigned_t AlignTo) (lit 1) ;;
  b <- add (cast unsigned_t Address) a ;;
  m <- neg AlignTo ;;
  ret (num (cast T (band b (cast unsigned_t m)))).

(** [AlignLower]:
    [using unsigned_t = to_uint_t<T>::type;
     static_cast<T>( unsigned_t(Address) & (-AlignTo) )].
    Unlike [Align] and [isAlign], which take [to_uint_t<T>] itself, the
    function asks for the member [type] of that integer type. *)
Definition AlignLower (T : ity) (Address AlignTo : Z) : option Z :=
  let Address := param T Address in
  let AlignTo := param int AlignTo in
  unsigned_t <- member_type (to_uint_t T) ;;
  m <- neg AlignTo ;;
  ret (num (cast T (band (cast unsigned_t Address) m))).

(** [isAlign]:
    [( unsigned_t(Addr) & (static_cast<unsigned_t>(AlignTo) - 1) ) == 0]. *)
Definition isAlign (T : ity) (Addr AlignTo : Z) : option bool :=
  let Addr := param T Addr in
  let AlignTo := param int AlignTo in
  let unsigned_t := to_uint_t T in
  a <- sub (cast unsigned_t AlignTo) (lit 1) ;;
  ret (eqv (band (cast unsigned_t Addr) a) (lit 0)).

(** ** Flags *)

(** Modelled from the spec: the header only declares
    [template<class T> constexpr void FlagToggle(T& N, const std::uint32_t F)],
    its body is not part of the sources.  The spec gives it as
    [N = N xor F], in place.  The referenced object is passed as its content
    before the call, and the result is its content after the call. *)
Definition FlagToggle (T : ity) (N F : Z) : Z :=
  let N := V T N in
  let F := param uint32_t F in
  num (cast T (bxor N F)).

(** ** Rounding up to a power of two *)

(** [details::NextPowOfTwo]:
    [static_cast<T>( (s == 0) ? 1 + x : NextPowOfTwo<T>( x | (x >> s), s >> 1 ) )].
    [depth] bounds the number of nested calls. *)
Fixpoint NextPowOfTwo_rec (depth : nat) (T : ity) (x s : Z) : option Z :=
  match depth with
  | O => None
  | S depth' =>
      let x := param T x in
      let s := param int s in
      r <- (if eqv s (lit 0)
            then add (lit 1) x
            else t <- shr x s ;;
                 s' <- shr s (lit 1) ;;
                 z <- NextPowOfTwo_rec depth' T (num (bor x t)) (num s') ;;
                 ret (V T z)) ;;
      ret (num (cast T r))
  end.

(** The shift amount decreases at every call (a call with a negative amount
    stops at its undefined shift), so [S (Z.to_nat s)] nested calls always
    suffice; [NextPowOfTwo_eq] below shows that the function satisfies the
    recursive equation of the source. *)
Definition NextPowOfTwo (T : ity) (x s : Z) : option Z :=
  NextPowOfTwo_rec (S (Z.to_nat s)) T x s.

(** [RoundToNextPowOfTwo]:
    [(x == 0) ? 0 : details::NextPowOfTwo<T>( x - 1, static_cast<int>(4*sizeof(T)) )]. *)
Definition RoundToNextPowOfTwo (T : ity) (x : Z) : option Z :=
  let x := param T x in
  r <- (if eqv x (lit 0)
        then ret (lit 0)
        else d <- sub x (lit 1) ;;
             s <- mul (lit 4) (V size_t (Z.of_nat (sizeof T))) ;;
             z <- NextPowOfTwo T (num d) (num (cast int s)) ;;
             ret (V T z)) ;;
  ret (num (cast T r)).

(** ** Hash finaliser *)

(** [x op= e]: the value of [x op e] converted to the type of [x]. *)
Definition assign (x e : val) : val := cast (ty x) e.

(** [details::murmurHash3_by_size<4>::Compute]. *)
Definition murmurHash3_by_size_4_Compute (h : Z) : option Z :=
  let h := param uint32_t h in
  t <- shr h (lit 16) ;;
  let h := assign h (bxor h t) in
  t <- mul h (ulit 0x85ebca6b) ;;
  let h := assign h t in
  t <- shr h (lit 13) ;;
  let h := assign h (bxor h t) in
  t <- mul h (ulit 0xc2b2ae35) ;;
  let h := assign h t in
  t <- shr h (lit 16) ;;
  let h := assign h (bxor h t) in
  ret (num h).

(** [details::murmurHash3_by_size<8>::Compute]; the two constants have type
    [unsigned long]. *)
Definition murmurHash3_by_size_8_Compute (h : Z) : option Z :=
  let h := param uint64_t h in
  t <- shr h (lit 33) ;;
  let h := assign h (bxor h t) in
  t <- mul h (V U64 0xff51afd7ed558ccd) ;;
  let h := assign h t in
  t <- shr h (lit 33) ;;
  let h := assign h (bxor h t) in
  t <- mul h (V U64 0xc4ceb9fe1a85ec53) ;;
  let h := assign h t in
  t <- shr h (lit 33) ;;
  let h := assign h (bxor h t) in
  ret (num h).

(** [details::murmurHash3_by_size<T_SIZE>]: the primary template is empty,
    only sizes 4 and 8 have a [Compute]. *)
Definition murmurHash3_by_size (T_SIZE : nat) : option (Z -> option Z) :=
  match T_SIZE with
  | 4%nat => Some murmurHash3_by_size_4_Compute
  | 8%nat => Some murmurHash3_by_size_8_Compute
  | _ => None
  end.

(** [MurmurHash3]:
    [static_cast<T>( murmurHash3_by_size<sizeof(T)>::Compute( static_cast<to_uint_t<T>>(h) ) )].
    A type of another size is rejected at compile time ([None]). *)
Definition MurmurHash3 (T : ity) (h : Z) : option Z :=
  let h := param T h in
  match murmurHash3_by_size (sizeof T) with
  | Some compute =>
      r <- compute (num (cast (to_uint_t T) h)) ;;
      ret (num (cast T (V (to_uint_t T) r)))
  | None => None
  end.

(** ** Bit counting (portable branch) *)

(** [popcnt32]. *)
Definition popcnt32 (x : Z) : option Z :=
  let x := param uint32_t x in
  t <- shr x (lit 1) ;;
  d <- sub x (band t (lit 0x55555555)) ;;
  let x := assign x d in
  t <- shr x (lit 2) ;;
  s <- add (band t (lit 0x33333333)) (band x (lit 0x33333333)) ;;
  let x := assign x s in
  t <- shr x (lit 4) ;;
  s <- add t x ;;
  let x := assign x (band s (lit 0x0f0f0f0f)) in
  t <- shr x (lit 8) ;;
  s <- add x t ;;
  let x := assign x s in
  t <- shr x (lit 16) ;;
  s <- add x t ;;
  let x := assign x s in
  ret (num (cast uint32_t (band x (lit 0x0000003f)))).

(** [clz32]. *)
Definition clz32 (x : Z) : option Z :=
  let x := param uint32_t x in
  t <- shr x (lit 1) ;;
  let x := assign x (bor x t) in
  t <- shr x (lit 2) ;;
  let x := assign x (bor x t) in
  t <- shr x (lit 4) ;;
  let x := assign x (bor x t) in
  t <- shr x (lit 8) ;;
  let x := assign x (bor x t) in
  t <- shr x (lit 16) ;;
  let x := assign x (bor x t) in
  p <- popcnt32 (num x) ;;
  r <- sub (lit 32) (V uint32_t p) ;;
  ret (num (cast uint32_t r)).

(** [ctz32]: [popcnt32((x & -x) - 1)]. *)
Definition ctz32 (x : Z) : option Z :=
  let x := param uint32_t x in
  m <- neg x ;;
  d <- sub (band x m) (lit 1) ;;
  popcnt32 (num d).

(** ** Comparisons, logarithms and divisibility *)

Definition lev (a b : val) : bool :=
  let C := common (ty a) (ty b) in
  conv C (num a) <=? conv C (num b).

Definition ltv (a b : val) : bool :=
  let C := common (ty a) (ty b) in
  conv C (num a) <? conv C (num b).

(** [Log2Int]: [(x <= 1) ? p : Log2Int(x >> 1, p + 1)].  The template
    argument of the nested call is deduced from [x >> 1], whose type is the
    promoted type of [x].  [depth] bounds the number of nested calls. *)
Fixpoint Log2Int_rec (depth : nat) (T : ity) (x p : Z) : option Z :=
  match depth with
  | O => None
  | S depth' =>
      let x := param T x in
      let p := param int p in
      r <- (if lev x (lit 1)
            then ret p
            else t <- shr x (lit 1) ;;
                 q <- add p (lit 1) ;;
                 z <- Log2Int_rec depth' (ty t) (num t) (num q) ;;
                 ret (V (ty t) z)) ;;
      ret (num (cast T r))
  end.

(** The argument is halved at every call, so a value of [T] never needs more
    nested calls than [T] has bits; [Log2Int_eq] below shows that the function
    satisfies the recursive equation of the source. *)
Definition Log2Int (T : ity) (x p : Z) : option Z :=
  Log2Int_rec (S (Z.to_nat (bits T))) T x p.

(** [Log2IntRoundUp]: [x < 1 ? 0 : Log2Int(x) + 1]. *)
Definition Log2IntRoundUp (T : ity) (x : Z) : option Z :=
  let x := param T x in
  r <- (if ltv x (lit 1)
        then ret (lit 0)
        else l <- Log2Int T (num x) 0 ;;
             add (V T l) (lit 1)) ;;
  ret (num (cast T r)).

(** [isDivBy2PowerX]: [((n & ((1 << x) - 1)) == 0)]. *)
Definition isDivBy2PowerX (T1 T2 : ity) (n x : Z) : option bool :=
  let n := param T1 n in
  let x := param T2 x in
  s <- shl (lit 1) x ;;
  m <- sub s (lit 1) ;;
  ret (eqv (band n m) (lit 0)).

End Xbits.


(** ** Reference notions used in the statements *)

(** Powers of two: 1, 2, 4, 8, ... *)
Definition is_pow2 (z : Z) : Prop := exists k, 0 <= k /\ z = 2 ^ k.

(** The power-of-two test as the documentation of [isPowTwo] words it:
    [x > 0] and [(x - 1) & x == 0]. *)
Definition isPowTwo_doc (x : Z) : bool := (0 <? x) && (Z.land (x - 1) x =? 0).

(** Number of zero bits below the lowest set bit of a positive number. *)
Fixpoint trailing_zeros (p : positive) : nat :=
  match p with
  | xO q => S (trailing_zeros q)
  | xI _ | xH => O
  end.

Definition ntz (x : Z) : Z :=
  match x with
  | Zpos p => Z.of_nat (trailing_zeros p)
  | _ => 0
  end.

(** The 32-bit finaliser as the five steps of its description, each one an
    operation on residues modulo [2 ^ 32]. *)
Inductive mix_step : Set :=
| XorShiftRight (n : Z)      (* h ^= h >> n *)
| MultiplyBy (c : Z).        (* h *= c *)

Definition run_step32 (h : Z) (st : mix_step) : Z :=
  match st with
  | XorShiftRight n => Z.lxor h (Z.shiftr h n)
  | MultiplyBy c => (h * c) mod 2 ^ 32
  end.

Definition mix32_steps : list mix_step :=
  [XorShiftRight 16; MultiplyBy 0x85ebca6b; XorShiftRight 13;
   MultiplyBy 0xc2b2ae35; XorShiftRight 16].

Definition mix32 (h : Z) : Z := fold_left run_step32 mix32_steps h.

(** Inverse steps: a xor-shift by [n] is undone by xoring the shifts by the
    multiples of [n] below 32; a multiplication by an odd constant is undone
    by the multiplication by its inverse modulo [2 ^ 32]. *)
Definition undo_step32 (h : Z) (st : mix_step) : Z :=
  match st with
  | XorShiftRight n =>
      if 16 <=? n then Z.lxor h (Z.shiftr h n)
      else Z.lxor (Z.lxor h (Z.shiftr h n)) (Z.shiftr h (2 * n))
  | MultiplyBy c => (h * c) mod 2 ^ 32
  end.

Definition unmix32_steps : list mix_step :=
  [XorShiftRight 16; MultiplyBy 0x7ed1b41d; XorShiftRight 13;
   MultiplyBy 0xa5cb9243; XorShiftRight 16].

Definition unmix32 (h : Z) : Z := fold_left undo_step32 unmix32_steps h.

(** Number of set bits. *)
Fixpoint pos_popcount (p : positive) : nat :=
  match p with
  | xH => 1
  | xO q => pos_popcount q
  | xI q => S (pos_popcount q)
  end.

Definition popcount (x : Z) : Z :=
  match x with
  | Zpos p => Z.of_nat (pos_popcount p)
  | _ => 0
  end.

(** The first three steps of the parallel bit count, on a 16-bit half of the
    word: sums of pairs of bits, of pairs of pairs, and of the two halves of
    each byte. *)
Definition pc16_pairs (v : Z) : Z := v - Z.land (Z.shiftr v 1) 0x5555.

Definition pc16_nibbles (v : Z) : Z :=
  Z.land (Z.shiftr v 2) 0x3333 + Z.land v 0x3333.

Definition pc16_bytes (v : Z) : Z := Z.land (Z.shiftr v 4 + v) 0x0f0f.

(** What the three steps make of a half-word: every intermediate result
    stays within its fields, and the two bytes of the last one hold the
    numbers of set bits of the two bytes of [v]. *)
Definition pc16_ok (v : Z) : bool :=
  let w1 := pc16_pairs v in
  let w2 := pc16_nibbles w1 in
  let w3 := pc16_bytes w2 in
  (0 <=? w1) && (w1 <? 65536) &&
  (0 <=? w2) && (w2 <=? 0x4444) && (w2 mod 16 <=? 4) &&
  (0 <=? w3) && (w3 / 256 <=? 8) && (w3 mod 256 <=? 8) &&
  (w3 / 256 + w3 mod 256 =? popcount v).

(** [f] on the [2 ^ k] integers from [base] on. *)
Fixpoint all_from (k : nat) (f : Z -> bool) (base : Z) : bool :=
  match k with
  | O => f base
  | S k' => all_from k' f base && all_from k' f (base + 2 ^ Z.of_nat k')
  end.

(** The 64-bit finaliser and its inverse, step by step on residues modulo
    [2 ^ 64]. *)
Definition run_step64 (h : Z) (st : mix_step) : Z :=
  match st with
  | XorShiftRight n => Z.lxor h (Z.shiftr h n)
  | MultiplyBy c => (h * c) mod 2 ^ 64
  end.

Definition mix64_steps : list mix_step :=
  [XorShiftRight 33; MultiplyBy 0xff51afd7ed558ccd; XorShiftRight 33;
   MultiplyBy 0xc4ceb9fe1a85ec53; XorShiftRight 33].

Definition mix64 (h : Z) : Z := fold_left run_step64 mix64_steps h.

Definition unmix64_steps : list mix_step :=
  [XorShiftRight 33; MultiplyBy 0x9cb4b2f8129337db; XorShiftRight 33;
   MultiplyBy 0x4f74430c22a54005; XorShiftRight 33].

Definition unmix64 (h : Z) : Z := fold_left run_step64 unmix64_steps h.

Definition u64 (z : Z) : Prop := 0 <= z < 2 ^ 64.

(** The values of a 32-bit unsigned word. *)
Definition u32 (z : Z) : Prop := 0 <= z < 2 ^ 32.

(** "Bits closed under subtraction of [d]": whenever bit [i + d] of [y] is
    set, so is bit [i].  The invariant of the bit smearing. *)
Definition smeared (d y : Z) : Prop :=
  forall i, 0 <= i -> Z.testbit y (i + d) = true -> Z.testbit y i = true.

(** * Properties *)

(** ** Proof automation *)

(** Evaluate the closed powers of two, so that [lia] sees numerals. *)
Ltac zconst :=
  repeat match goal with
  | |- context [Z.pow 2 ?n] =>
      let v := eval vm_compute in (Z.pow 2 n) in
      lazymatch v with Zpos _ => progress change (Z.pow 2 n) with v end
  | H : context [Z.pow 2 ?n] |- _ =>
      let v := eval vm_compute in (Z.pow 2 n) in
      lazymatch v with Zpos _ => progress change (Z.pow 2 n) with v in H end
  end.

Ltac zlia := zconst; Z.div_mod_to_equations; lia.

Ltac unfold_range :=
  unfold in_range, in_rangeb, min_of, max_of, promote in *;
  cbn [is_signed bits sizeof Nat.ltb Nat.leb int uint32_t uint64_t size_t] in *.

(** Goals on ranges and residues, once the type is known. *)
Ltac range := unfold conv; unfold_range; zlia.

(** Typing of one operator application on values of known type. *)
Ltac ops_in m :=
  eval cbv beta iota zeta delta
    [ret param cast assign add sub mul neg band bor bxor shl shr eqv lnot lit
     ulit common promote to_uint_t byte_size_uint_t byte_size_uint_tuple
     nth_error sizeof is_signed int uint32_t uint64_t size_t ty num Nat.ltb
     Nat.leb shift_ok bits] in m.

(** Symbolic execution of [x <- m ;; k]: type the operator in [m] ... *)
Ltac step :=
  lazymatch goal with
  | |- bind ?m ?k = ?R => let m' := ops_in m in change (bind m' k = R)
  end.

(** ... and continue with [k] once [m] has a value. *)
Ltac next :=
  lazymatch goal with
  | |- bind (Some ?v) ?k = ?R => change (k v = R); cbv beta
  end.

Ltac fin :=
  lazymatch goal with
  | |- ?m = ?R => let m' := ops_in m in change (m' = R)
  end.

(** ** Facts on [Z] *)

Lemma land_mod_pow2 (w a b : Z) :
  0 <= w -> Z.land a b mod 2 ^ w = Z.land (a mod 2 ^ w) (b mod 2 ^ w).
Proof.
  intros Hw. rewrite <- !Z.land_ones by assumption.
  rewrite (Z.land_comm b), Z.land_assoc, <- (Z.land_assoc a (Z.ones w)).
  rewrite Z.land_diag, <- !Z.land_assoc. f_equal. apply Z.land_comm.
Qed.

Lemma land_neg_pow2 (y k : Z) :
  0 <= k -> Z.land y (- 2 ^ k) = 2 ^ k * (y / 2 ^ k).
Proof.
  intros Hk.
  replace (- 2 ^ k) with (Z.lnot (Z.ones k))
    by (unfold Z.lnot; rewrite Z.ones_equiv; lia).
  rewrite <- Z.ldiff_land, Z.ldiff_ones_r by assumption.
  rewrite Z.shiftl_mul_pow2, Z.shiftr_div_pow2 by assumption. lia.
Qed.

(** The masking step of [Align], on residues modulo [2 ^ w]. *)
Lemma mask_core (w k y m z : Z) :
  0 <= w -> 0 <= k ->
  y mod 2 ^ w = z mod 2 ^ w ->
  m mod 2 ^ w = (- 2 ^ k) mod 2 ^ w ->
  Z.land y m mod 2 ^ w = (2 ^ k * (z / 2 ^ k)) mod 2 ^ w.
Proof.
  intros Hw Hk Hy Hm.
  rewrite land_mod_pow2, Hy, Hm, <- land_mod_pow2 by assumption.
  rewrite land_neg_pow2 by assumption. reflexivity.
Qed.

Section Properties.

Variable sovf : signed_overflow.

(** ** Conversions and arithmetic *)

Lemma conv_range T z : in_range T (conv T z).
Proof. destruct T; range. Qed.

Lemma conv_id T z : in_range T z -> conv T z = z.
Proof. destruct T; range. Qed.

Lemma conv_mod T z : conv T z mod 2 ^ bits T = z mod 2 ^ bits T.
Proof. destruct T; range. Qed.

Lemma conv_eq_mod T a b :
  a mod 2 ^ bits T = b mod 2 ^ bits T -> conv T a = conv T b.
Proof. destruct T; range. Qed.

Lemma conv_inj_mod T a b :
  conv T a = conv T b -> a mod 2 ^ bits T = b mod 2 ^ bits T.
Proof. intros H. rewrite <- (conv_mod T a), H. apply conv_mod. Qed.

Lemma arith_ok C z : in_range C z -> arith sovf C z = Some (V C z).
Proof.
  intros H. unfold arith. rewrite (conv_id _ _ H).
  replace (in_rangeb C z) with true.
  - rewrite andb_false_r. reflexivity.
  - symmetry. unfold in_range, in_rangeb in *.
    apply andb_true_intro. split; apply Z.leb_le; lia.
Qed.

Lemma arith_unsigned C z :
  is_signed C = false -> arith sovf C z = Some (V C (z mod 2 ^ bits C)).
Proof. intros H. unfold arith, conv. rewrite H. reflexivity. Qed.

Lemma arith_wraps C z : sovf = Wraps -> arith sovf C z = Some (V C (conv C z)).
Proof. intros H. unfold arith. rewrite H. destruct (_ && _); reflexivity. Qed.

(** ** Alignment *)

Lemma pow2_bounds k : 0 <= k <= 30 -> 1 <= 2 ^ k <= 2 ^ 30.
Proof.
  intros Hk. split.
  - pose proof (Z.pow_pos_nonneg 2 k). lia.
  - apply Z.pow_le_mono_r; lia.
Qed.

Ltac arith_step :=
  first [ rewrite arith_unsigned by reflexivity
        | rewrite arith_ok by range ].

Lemma Align_eq T x k :
  in_range T x -> 0 <= k <= 30 ->
  Align sovf T x (2 ^ k) = Some (conv T (2 ^ k * ((x + 2 ^ k - 1) / 2 ^ k))).
Proof.
  intros Hx Hk. pose proof (pow2_bounds k Hk) as Ha.
  assert (H0k : 0 <= k) by lia.
  unfold Align.
  destruct T; step; arith_step; next; step; arith_step; next; step; arith_step; next; fin.
  all: f_equal; apply conv_eq_mod; cbn [bits].
  all: apply mask_core; [lia | lia | | ].
  all: clear Hk H0k; generalize dependent (2 ^ k); intros a Ha; range.
Qed.

(** [to_uint_t<T>] is one of the four unsigned integer types, whose member
    [type] does not exist: [AlignLower<T>] is rejected for every [T]. *)
Lemma to_uint_t_unsigned T :
  to_uint_t T = U8 \/ to_uint_t T = U16 \/ to_uint_t T = U32 \/
  to_uint_t T = U64.
Proof. destruct T; cbn; tauto. Qed.

Lemma AlignLower_rejected T x a : AlignLower sovf T x a = None.
Proof.
  unfold AlignLower.
  destruct (to_uint_t_unsigned T) as [E | [E | [E | E]]]; rewrite E;
    reflexivity.
Qed.

Lemma land_mod_r (w a m : Z) :
  0 <= w -> Z.land (a mod 2 ^ w) m = Z.land (a mod 2 ^ w) (m mod 2 ^ w).
Proof.
  intros Hw. rewrite <- !Z.land_ones by assumption.
  rewrite <- !Z.land_assoc. f_equal.
  rewrite (Z.land_comm m), Z.land_assoc, Z.land_diag. reflexivity.
Qed.

(** The test of [isAlign], on residues modulo [2 ^ w]. *)
Lemma low_bits_core (w k x x' m : Z) :
  0 <= w -> 0 <= k ->
  x' = x mod 2 ^ w ->
  m mod 2 ^ w = (2 ^ k - 1) mod 2 ^ w ->
  Z.land x' m = (x mod 2 ^ k) mod 2 ^ w.
Proof.
  intros Hw Hk -> Hm.
  rewrite land_mod_r, Hm, <- land_mod_pow2 by assumption.
  replace (2 ^ k - 1) with (Z.ones k) by (rewrite Z.ones_equiv; lia).
  rewrite Z.land_ones by assumption. reflexivity.
Qed.

Lemma low_bits_zero (w k x : Z) :
  0 <= w -> 0 <= k -> - 2 ^ w < x < 2 ^ w ->
  ((x mod 2 ^ k) mod 2 ^ w = 0 <-> x mod 2 ^ k = 0).
Proof.
  intros Hw Hk Hx.
  assert (Hpk : 0 < 2 ^ k) by (apply Z.pow_pos_nonneg; lia).
  assert (Hpw : 0 < 2 ^ w) by (apply Z.pow_pos_nonneg; lia).
  destruct (Z.le_gt_cases k w) as [Hkw | Hkw].
  - assert (2 ^ k <= 2 ^ w) by (apply Z.pow_le_mono_r; lia).
    pose proof (Z.mod_pos_bound x (2 ^ k) Hpk).
    rewrite (Z.mod_small (x mod 2 ^ k)) by lia. tauto.
  - assert (Hdiv : 2 ^ k = 2 ^ w * 2 ^ (k - w))
      by (rewrite <- Z.pow_add_r by lia; f_equal; lia).
    assert (Hpd : 0 < 2 ^ (k - w)) by (apply Z.pow_pos_nonneg; lia).
    assert (Hlt : 2 ^ w < 2 ^ k) by (apply Z.pow_lt_mono_r; lia).
    destruct (Z.le_gt_cases 0 x) as [Hx0 | Hx0].
    + rewrite (Z.mod_small x (2 ^ k)), (Z.mod_small x (2 ^ w)) by lia. tauto.
    + assert (Hm : x mod 2 ^ k = x + 2 ^ k).
      { symmetry. apply (Z.mod_unique_pos _ _ (-1)); lia. }
      rewrite Hm. rewrite Hdiv at 1.
      rewrite (Z.mul_comm (2 ^ w)), Z_mod_plus_full.
      assert (Hm' : x mod 2 ^ w = x + 2 ^ w).
      { symmetry. apply (Z.mod_unique_pos _ _ (-1)); lia. }
      rewrite Hm'. lia.
Qed.

Lemma eqb_iff (a b c d : Z) : (a = b <-> c = d) -> (a =? b) = (c =? d).
Proof.
  intros H. destruct (Z.eqb_spec a b) as [E | E], (Z.eqb_spec c d) as [F | F];
    tauto.
Qed.

Lemma isAlign_eq T x k :
  in_range T x -> 0 <= k <= 30 ->
  isAlign sovf T x (2 ^ k) = Some (x mod 2 ^ k =? 0).
Proof.
  intros Hx Hk. pose proof (pow2_bounds k Hk) as Ha.
  assert (H0k : 0 <= k) by lia.
  assert (Hz : - 2 ^ bits T < x < 2 ^ bits T) by (destruct T; range).
  rewrite <- (eqb_iff _ _ _ _ (low_bits_zero (bits T) k x ltac:(destruct T; cbn; lia) H0k Hz)).
  clear Hz. unfold isAlign.
  destruct T; step; arith_step; next; fin.
  all: f_equal.
  all: match goal with
       | Hx : in_range ?T _ |- _ => rewrite (low_bits_core (bits T) k x)
       end; cbn [bits]; try lia.
  all: try (clear Hk H0k; generalize dependent (2 ^ k); intros a Ha; range).

Qed.

Lemma multiple_mod (w k x v : Z) :
  0 <= w -> 0 <= k -> - 2 ^ w < x < 2 ^ w ->
  x mod 2 ^ w = (2 ^ k * v) mod 2 ^ w -> x mod 2 ^ k = 0.
Proof.
  intros Hw Hk Hx H.
  assert (Hpk : 0 < 2 ^ k) by (apply Z.pow_pos_nonneg; lia).
  assert (Hpw : 0 < 2 ^ w) by (apply Z.pow_pos_nonneg; lia).
  destruct (Z.le_gt_cases k w) as [Hkw | Hkw].
  - assert (Hdiv : (2 ^ k | 2 ^ w)).
    { exists (2 ^ (w - k)). rewrite <- Z.pow_add_r by lia. f_equal. lia. }
    rewrite <- (Z.mod_mod_divide x _ _ Hdiv), H, (Z.mod_mod_divide _ _ _ Hdiv).
    rewrite Z.mul_comm. apply Z_mod_mult.
  - assert (Hz : (2 ^ k * v) mod 2 ^ w = 0).
    { replace (2 ^ k) with (2 ^ (k - w) * 2 ^ w)
        by (rewrite <- Z.pow_add_r by lia; f_equal; lia).
      replace (2 ^ (k - w) * 2 ^ w * v) with (2 ^ (k - w) * v * 2 ^ w) by lia.
      apply Z_mod_mult. }
    rewrite Hz in H. apply Z.mod_divide in H; [ | lia ].
    destruct H as [c Hc].
    assert (c = 0) by nia. subst c. replace x with 0 by lia.
    apply Z.mod_0_l. lia.
Qed.

Lemma conv_multiple T k v :
  0 <= k -> conv T (2 ^ k * v) mod 2 ^ k = 0.
Proof.
  intros Hk. apply (multiple_mod (bits T) k _ v).
  - destruct T; cbn; lia.
  - assumption.
  - pose proof (conv_range T (2 ^ k * v)). destruct T; range.
  - apply conv_mod.
Qed.

Lemma round_up_multiple (a x : Z) :
  0 < a -> x mod a = 0 -> a * ((x + a - 1) / a) = x.
Proof.
  intros Ha Hx. apply Z.mod_divide in Hx; [ | lia ]. destruct Hx as [c ->].
  replace (c * a + a - 1) with (c * a + (a - 1)) by lia.
  rewrite Z.div_add_l, (Z.div_small (a - 1)) by lia. lia.
Qed.

Lemma round_up_ge (a x : Z) : 0 < a -> x <= a * ((x + a - 1) / a).
Proof.
  intros Ha. pose proof (Z.div_mod (x + a - 1) a ltac:(lia)).
  pose proof (Z.mod_pos_bound (x + a - 1) a Ha). lia.
Qed.

Lemma round_up_lt (a x : Z) : 0 < a -> a * ((x + a - 1) / a) < x + a.
Proof.
  intros Ha. pose proof (Z.div_mod (x + a - 1) a ltac:(lia)).
  pose proof (Z.mod_pos_bound (x + a - 1) a Ha). lia.
Qed.

(** [Align] on an aligned value. *)
Lemma aligned_fixpoint T x k :
  in_range T x -> 0 <= k <= 30 -> x mod 2 ^ k = 0 ->
  Align sovf T x (2 ^ k) = Some x.
Proof.
  intros Hx Hk Hm.
  assert (Hpk : 0 < 2 ^ k) by (apply Z.pow_pos_nonneg; lia).
  rewrite Align_eq by assumption.
  rewrite round_up_multiple, conv_id by assumption.
  reflexivity.
Qed.

(** A multiple of [2 ^ k] that has passed [2 ^ w], with [k <= w], by less
    than [2 ^ k] is [2 ^ w]. *)
Lemma round_up_top (w k x : Z) :
  0 <= k <= w -> x < 2 ^ w ->
  2 ^ w <= 2 ^ k * ((x + 2 ^ k - 1) / 2 ^ k) ->
  2 ^ k * ((x + 2 ^ k - 1) / 2 ^ k) = 2 ^ w.
Proof.
  intros Hk Hx Hm.
  assert (Hpk : 0 < 2 ^ k) by (apply Z.pow_pos_nonneg; lia).
  assert (Hpc : 0 < 2 ^ (w - k)) by (apply Z.pow_pos_nonneg; lia).
  assert (E : 2 ^ w = 2 ^ k * 2 ^ (w - k))
    by (rewrite <- Z.pow_add_r by lia; f_equal; lia).
  pose proof (round_up_lt (2 ^ k) x Hpk) as Hlt.
  rewrite E in *. generalize dependent ((x + 2 ^ k - 1) / 2 ^ k).
  generalize dependent (2 ^ (w - k)). generalize dependent (2 ^ k).
  intros a Hpa c Hpc E Hx q Hm Hlt.
  assert (q = c) by nia. subst q. reflexivity.
Qed.

(** The width of the positive range of a type. *)
Lemma max_of_width T :
  exists w, 0 <= w <= bits T /\ max_of T + 1 = 2 ^ w /\
            conv T (2 ^ w) = (if is_signed T then min_of T else 0) /\
            (is_signed T = true -> w = bits T - 1) /\
            (is_signed T = false -> w = bits T).
Proof.
  destruct T;
    [ exists 7 | exists 8 | exists 15 | exists 16
    | exists 31 | exists 32 | exists 63 | exists 64 ];
    cbn [bits is_signed]; repeat split; try reflexivity; try lia;
    discriminate.
Qed.

(** When the least multiple of [2 ^ k] not below [x] is beyond the range of
    [T], its conversion to [T] is below [x]: it is the least value of [T],
    or 0 when [2 ^ k] is a multiple of [2 ^ bits]. *)
Lemma round_up_wrapped T x k :
  in_range T x -> 0 <= k ->
  ~ in_range T (2 ^ k * ((x + 2 ^ k - 1) / 2 ^ k)) ->
  conv T (2 ^ k * ((x + 2 ^ k - 1) / 2 ^ k)) < x.
Proof.
  intros Hx Hk Hout.
  assert (Hpk : 0 < 2 ^ k) by (apply Z.pow_pos_nonneg; lia).
  pose proof (round_up_ge (2 ^ k) x Hpk) as Hge.
  pose proof (round_up_lt (2 ^ k) x Hpk) as Hlt.
  destruct (max_of_width T) as [w [Hw [Hmax [Hconv [Hs Hu]]]]].
  assert (Hmin : min_of T <= 0)
    by (destruct T; unfold min_of; cbn [is_signed bits]; zlia).
  assert (Htop : max_of T < 2 ^ k * ((x + 2 ^ k - 1) / 2 ^ k))
    by (unfold in_range in *; lia).
  destruct (Z.le_gt_cases k w) as [Hkw | Hkw].
  - rewrite (round_up_top w k x) in * by (unfold in_range in *; lia).
    assert (Hle : 2 ^ k <= 2 ^ w) by (apply Z.pow_le_mono_r; lia).
    rewrite Hconv. destruct (is_signed T); lia.
  - assert (Hkb : bits T <= k)
      by (destruct (is_signed T) eqn:S';
          [rewrite (Hs eq_refl) in Hkw | rewrite (Hu eq_refl) in Hkw]; lia).
    assert (Hb : 0 <= bits T) by lia.
    assert (E : 2 ^ k = 2 ^ bits T * 2 ^ (k - bits T))
      by (rewrite <- Z.pow_add_r by lia; f_equal; lia).
    assert (Hz : conv T (2 ^ k * ((x + 2 ^ k - 1) / 2 ^ k)) = 0).
    { rewrite <- (conv_id T 0) by (unfold in_range in *; lia).
      apply conv_eq_mod. rewrite Zmod_0_l, E.
      rewrite <- Z.mul_assoc, Z.mul_comm. apply Z_mod_mult. }
    rewrite Hz.
    assert (0 <= max_of T) by (unfold in_range in *; lia).
    generalize dependent ((x + 2 ^ k - 1) / 2 ^ k). intros q. intros.
    assert (1 <= q) by nia. nia.
Qed.

(** C9.  [AlignLower] does not take part in the agreement of the three
    tests: it names its unsigned type [to_uint_t<T>::type], the member [type]
    of an integer type, so for every integral [T] the function is rejected
    and [AlignLower(x, a)] has no value to compare with [x].  The two
    functions that take [to_uint_t<T>] itself do agree: for every [x] of [T]
    and every power-of-two alignment [2 ^ k] that an [int] holds,
    [isAlign(x, a)] is true if and only if [Align(x, a) == x]. *)
Theorem AlignLower_rejected_isAlign_Align_agree T x k :
  (forall a, AlignLower sovf T x a = None) /\
  (in_range T x -> 0 <= k <= 30 ->
   exists b hi,
     isAlign sovf T x (2 ^ k) = Some b /\
     Align sovf T x (2 ^ k) = Some hi /\
     (b = true <-> hi = x)).
Proof.
  split; [intros a; apply AlignLower_rejected | ].
  intros Hx Hk.
  assert (Hpk : 0 < 2 ^ k) by (apply Z.pow_pos_nonneg; lia).
  assert (Hw : 0 <= bits T) by (destruct T; cbn; lia).
  assert (Hz : - 2 ^ bits T < x < 2 ^ bits T) by (destruct T; range).
  assert (Hback : forall v, conv T (2 ^ k * v) = x -> x mod 2 ^ k = 0).
  { intros v Hv. apply (multiple_mod (bits T) k x v); try lia.
    rewrite <- Hv at 1. apply conv_mod. }
  exists (x mod 2 ^ k =? 0), (conv T (2 ^ k * ((x + 2 ^ k - 1) / 2 ^ k))).
  rewrite isAlign_eq, Align_eq by assumption.
  repeat split; try reflexivity.
  - intros Hb. apply Z.eqb_eq in Hb.
    rewrite round_up_multiple by assumption. apply conv_id, Hx.
  - intros Hhi. apply Z.eqb_eq. eapply Hback, Hhi.
Qed.

(** C2 (amended).  For every integral type [T], every [x] of that type and
    every power-of-two alignment [a = 2 ^ k] with [0 <= k <= 30]:
    [Align(x, a)] is a multiple of [a], [Align(Align(x, a), a) == Align(x, a)],
    and [Align(x, a) == x] when [x] is already a multiple of [a].  When the
    smallest multiple of [a] not below [x] is representable in [T] it is the
    value of [Align(x, a)], which is then [>= x]; otherwise [Align(x, a)] is
    that multiple reduced modulo [2 ^ bits(T)] into the range of [T], a value
    below [x]. *)
Theorem Align_bounds_or_wraps T x k :
  in_range T x -> 0 <= k <= 30 ->
  exists hi,
    Align sovf T x (2 ^ k) = Some hi /\
    (2 ^ k | hi) /\
    Align sovf T hi (2 ^ k) = Some hi /\
    ((2 ^ k | x) -> hi = x) /\
    (in_range T (2 ^ k * ((x + 2 ^ k - 1) / 2 ^ k)) ->
       hi = 2 ^ k * ((x + 2 ^ k - 1) / 2 ^ k) /\ x <= hi) /\
    (~ in_range T (2 ^ k * ((x + 2 ^ k - 1) / 2 ^ k)) ->
       in_range T hi /\
       hi mod 2 ^ bits T =
         (2 ^ k * ((x + 2 ^ k - 1) / 2 ^ k)) mod 2 ^ bits T /\
       hi < x).
Proof.
  intros Hx Hk.
  assert (H0k : 0 <= k) by lia.
  assert (Hpk : 0 < 2 ^ k) by (apply Z.pow_pos_nonneg; lia).
  exists (conv T (2 ^ k * ((x + 2 ^ k - 1) / 2 ^ k))).
  rewrite Align_eq by assumption.
  split; [reflexivity | ].
  split; [apply Z.mod_divide; [lia | apply conv_multiple, H0k] | ].
  split; [apply aligned_fixpoint;
          [apply conv_range | assumption | apply conv_multiple, H0k] | ].
  split; [ | split].
  - intros Hd. apply Z.mod_divide in Hd; [ | lia].
    rewrite round_up_multiple by assumption. apply conv_id, Hx.
  - intros Hr. rewrite conv_id by assumption.
    split; [reflexivity | apply round_up_ge; lia].
  - intros Hout. split; [apply conv_range | split].
    + apply conv_mod.
    + apply round_up_wrapped; assumption.
Qed.

(** ** Power-of-two helpers *)

(** Drop the conversions of values that the target type holds. *)
Ltac conv_simpl :=
  repeat match goal with
  | |- context [conv ?T ?z] => rewrite (conv_id T z) by range
  end.

(** C1.  [isPowTwo(0)] is [true] for every integral type, whereas the
    documented test, [x > 0] and [(x - 1) & x == 0], is false at 0: the
    body [!((x - 1) & x)] has no [x > 0] conjunct. *)
Theorem isPowTwo_zero T :
  isPowTwo sovf T 0 = Some true /\ isPowTwo_doc 0 = false.
Proof. split; [destruct T, sovf | ]; reflexivity. Qed.

(** At the least value of [std::int32_t], [x - 1] overflows; when it wraps
    around, the test is true there as well. *)
Example isPowTwo_int32_min :
  isPowTwo Wraps I32 (- 2 ^ 31) = Some true /\
  isPowTwo Undefined I32 (- 2 ^ 31) = None.
Proof. split; reflexivity. Qed.

(** Away from 0 (and from the least value of a signed type at least as wide
    as [int], where [x - 1] overflows) the code computes the documented
    test. *)
Lemma isPowTwo_nonzero T x :
  in_range T x -> x <> 0 -> x <> min_of T \/ bits T < 32 ->
  isPowTwo sovf T x = Some (isPowTwo_doc x).
Proof.
  intros Hx Hnz Hmin. unfold isPowTwo, isPowTwo_doc.
  destruct T; step; arith_step; next; fin; f_equal.
  all: conv_simpl; rewrite ?(Z.mod_small (x - 1)) by range.
  all: destruct (Z.ltb_spec 0 x) as [Hp | Hn]; [reflexivity | ].
  all: cbn [andb]; apply Z.eqb_neq; intros Hl.
  all: assert (Hneg : 0 <= Z.land (x - 1) x) by lia.
  all: apply Z.land_nonneg in Hneg; lia.
Qed.

(** The documented test holds exactly on the powers of two. *)
Lemma isPowTwo_doc_spec x : isPowTwo_doc x = true <-> is_pow2 x.
Proof.
  unfold isPowTwo_doc, is_pow2. rewrite andb_true_iff, Z.ltb_lt, Z.eqb_eq.
  split.
  - intros [Hp Hl]. exists (Z.log2 x). split; [apply Z.log2_nonneg | ].
    destruct (Z.log2_spec x Hp) as [Hlo Hhi].
    destruct (Z.eq_dec x (2 ^ Z.log2 x)) as [E | E]; [exact E | exfalso].
    assert (Hb : Z.testbit (Z.land (x - 1) x) (Z.log2 x) = true).
    { rewrite Z.land_spec, (Z.bit_log2 x Hp), andb_true_r.
      assert (Hl1 : Z.log2 (x - 1) = Z.log2 x).
      { apply Z.log2_unique; [apply Z.log2_nonneg | ].
        rewrite <- Z.add_1_r in Hhi. lia. }
      rewrite <- Hl1. apply Z.bit_log2.
      pose proof (Z.pow_pos_nonneg 2 (Z.log2 x) ltac:(lia) (Z.log2_nonneg x)).
      lia. }
    rewrite Hl, Z.bits_0 in Hb. discriminate.
  - intros [k [Hk ->]].
    assert (Hp : 0 < 2 ^ k) by (apply Z.pow_pos_nonneg; lia).
    split; [exact Hp | ].
    replace (2 ^ k - 1) with (Z.ones k) by (rewrite Z.ones_equiv; lia).
    rewrite Z.land_comm, Z.land_ones by assumption. apply Z_mod_same_full.
Qed.

(** [1 << n] is computed in [int], whatever [T] is. *)
Lemma SLeft_eq T n :
  in_range T n ->
  SLeft T n =
  if (0 <=? n) && (n <? 32) then Some (conv T (conv int (2 ^ n))) else None.
Proof.
  intros Hn. unfold SLeft, param. rewrite (conv_id _ _ Hn).
  unfold bind, shl, lit, shift_ok, cast, ret. cbn [ty num promote].
  change (promote int) with int. change (bits int) with 32.
  destruct ((0 <=? n) && (n <? 32)) eqn:E; [ | reflexivity ].
  apply andb_true_iff in E. destruct E as [E _]. apply Z.leb_le in E.
  cbn [num]. change (conv int 1) with 1.
  rewrite Z.shiftl_1_l. reflexivity.
Qed.

(** Where the code delivers [2 ^ n]: exponents below 31, within the width
    of [T]. *)
Lemma SLeft_small T n :
  0 <= n < 31 -> 2 ^ n <= max_of T -> SLeft T n = Some (2 ^ n).
Proof.
  intros Hn Hmax.
  assert (Hp : 0 < 2 ^ n) by (apply Z.pow_pos_nonneg; lia).
  assert (Hlt : 2 ^ n < 2 ^ 31) by (apply Z.pow_lt_mono_r; lia).
  assert (Hnp : n < 2 ^ n) by (apply Z.pow_gt_lin_r; lia).
  assert (HT : in_range T (2 ^ n)) by (destruct T; unfold_range; zlia).
  rewrite SLeft_eq by (destruct T; unfold_range; zlia).
  replace ((0 <=? n) && (n <? 32)) with true
    by (symmetry; apply andb_true_iff; split; [apply Z.leb_le | apply Z.ltb_lt]; lia).
  rewrite (conv_id int) by (unfold int; unfold_range; zlia).
  rewrite conv_id by assumption. reflexivity.
Qed.

(** On the types no wider than [int] the conversion of the [int] result
    gives [2 ^ n] in [T] (wrapped to the least value of a signed [T] when
    [n] is its sign bit). *)
Lemma SLeft_narrow T n :
  bits T <= 32 -> 0 <= n < bits T -> SLeft T n = Some (conv T (2 ^ n)).
Proof.
  intros HT Hn.
  assert (Hnp : n < 2 ^ n) by (apply Z.pow_gt_lin_r; lia).
  assert (Hlt : 2 ^ n < 2 ^ bits T) by (apply Z.pow_lt_mono_r; lia).
  assert (Hmax : 2 ^ (bits T - 1) <= max_of T + 1)
    by (destruct T; unfold max_of; cbn [is_signed bits]; zlia).
  assert (Hle : 2 ^ n <= 2 ^ (bits T - 1)) by (apply Z.pow_le_mono_r; lia).
  rewrite SLeft_eq by (destruct T; unfold_range; zlia).
  replace ((0 <=? n) && (n <? 32)) with true
    by (symmetry; apply andb_true_iff; split;
        [apply Z.leb_le | apply Z.ltb_lt]; lia).
  f_equal. apply conv_eq_mod.
  clear Hnp Hlt Hmax Hle Hn. generalize (2 ^ n). intros p.
  destruct T; cbn [bits] in HT; try lia; range.
Qed.

(** C3.  [SLeft<std::uint64_t>(31)] is [2 ^ 64 - 2 ^ 31], not [2 ^ 31], and
    [SLeft<std::uint64_t>(40)] shifts an [int] by more than its width, which
    is undefined, although 31 and 40 are below the 64 bits of the type: the
    shift is the [int] expression [1 << n], converted to [T] afterwards. *)
Theorem SLeft_uint64_not_pow2 :
  SLeft U64 31 = Some (2 ^ 64 - 2 ^ 31) /\ 2 ^ 64 - 2 ^ 31 <> 2 ^ 31 /\
  SLeft U64 40 = None.
Proof. repeat split. discriminate. Qed.

(** ** Flags *)

Lemma lxor_mod_pow2 (w a b : Z) :
  0 <= w -> Z.lxor a b mod 2 ^ w = Z.lxor (a mod 2 ^ w) (b mod 2 ^ w).
Proof.
  intros Hw. apply Z.bits_inj'. intros n Hn.
  rewrite Z.lxor_spec. destruct (Z.lt_ge_cases n w) as [L | L].
  - rewrite !Z.mod_pow2_bits_low by lia. apply Z.lxor_spec.
  - rewrite !Z.mod_pow2_bits_high by lia. reflexivity.
Qed.

Lemma in_range_mod_inj T a b :
  in_range T a -> in_range T b ->
  a mod 2 ^ bits T = b mod 2 ^ bits T -> a = b.
Proof. destruct T; range. Qed.

Lemma FlagToggle_mod T N F :
  FlagToggle T N F mod 2 ^ bits T =
  Z.lxor (N mod 2 ^ bits T) (conv uint32_t F mod 2 ^ bits T).
Proof.
  unfold FlagToggle.
  assert (Hw : 0 <= bits T) by (destruct T; cbn; lia).
  destruct T; fin; rewrite conv_mod, lxor_mod_pow2 by assumption.
  all: apply (f_equal2 Z.lxor); cbn [bits]; unfold uint32_t;
    generalize (conv U32 F); intros; range.
Qed.

(** C8.  Toggling twice with the same mask restores the integer: for every
    integral type [T], every [N] of that type and every mask [F], the
    content of [N] after [FlagToggle(N, F); FlagToggle(N, F)] is its
    original content. *)
Theorem FlagToggle_twice T N F :
  in_range T N -> FlagToggle T (FlagToggle T N F) F = N.
Proof.
  intros HN. apply (in_range_mod_inj T).
  - unfold FlagToggle, cast. cbn [num]. apply conv_range.
  - assumption.
  - rewrite !FlagToggle_mod.
    rewrite Z.lxor_assoc, Z.lxor_nilpotent. apply Z.lxor_0_r.
Qed.

(** ** 32-bit words *)

Lemma u32_mod z : u32 (z mod 2 ^ 32).
Proof. unfold u32. zlia. Qed.

Lemma u32_shiftr z n : u32 z -> 0 <= n -> u32 (Z.shiftr z n).
Proof.
  unfold u32. intros Hz Hn. rewrite Z.shiftr_div_pow2 by assumption.
  assert (0 < 2 ^ n) by (apply Z.pow_pos_nonneg; lia).
  split; [apply Z.div_pos; lia | ].
  apply Z.le_lt_trans with z; [ | lia ].
  apply Z.div_le_upper_bound; nia.
Qed.

Lemma u32_bits z : u32 z <-> 0 <= z /\ forall i, 32 <= i -> Z.testbit z i = false.
Proof.
  unfold u32. split.
  - intros Hz. split; [lia | ]. intros i Hi.
    destruct (Z.eq_dec z 0) as [-> | Hnz]; [apply Z.bits_0 | ].
    apply Z.bits_above_log2; [lia | ].
    apply Z.lt_le_trans with 32; [ | assumption ].
    apply Z.log2_lt_pow2; lia.
  - intros [Hz Hb]. split; [assumption | ].
    destruct (Z.eq_dec z 0) as [-> | Hnz]; [reflexivity | ].
    apply Z.log2_lt_pow2; [lia | ].
    destruct (Z.lt_ge_cases (Z.log2 z) 32) as [L | L]; [assumption | ].
    pose proof (Z.bit_log2 z ltac:(lia)) as Hl. rewrite (Hb _ L) in Hl.
    discriminate.
Qed.

Lemma u32_lxor a b : u32 a -> u32 b -> u32 (Z.lxor a b).
Proof.
  rewrite !u32_bits. intros [Ha Ha'] [Hb Hb']. split.
  - apply Z.lxor_nonneg. tauto.
  - intros i Hi. rewrite Z.lxor_spec, Ha', Hb' by assumption. reflexivity.
Qed.

Lemma u32_lor a b : u32 a -> u32 b -> u32 (Z.lor a b).
Proof.
  rewrite !u32_bits. intros [Ha Ha'] [Hb Hb']. split.
  - apply Z.lor_nonneg. tauto.
  - intros i Hi. rewrite Z.lor_spec, Ha', Hb' by assumption. reflexivity.
Qed.

Lemma u32_land a b : u32 a -> u32 (Z.land a b).
Proof.
  rewrite !u32_bits. intros [Ha Ha']. split.
  - apply Z.land_nonneg. tauto.
  - intros i Hi. rewrite Z.land_spec, Ha' by assumption. reflexivity.
Qed.

Lemma conv_u32 z : u32 z -> conv U32 z = z.
Proof. unfold u32. intros. apply conv_id. range. Qed.

Lemma u32_conv z : u32 (conv U32 z).
Proof. apply u32_mod. Qed.

Create HintDb u32 discriminated.
#[local] Hint Resolve u32_mod u32_conv u32_shiftr u32_lxor u32_lor u32_land : u32.
#[local] Hint Extern 1 (0 <= _) => lia : u32.
#[local] Hint Extern 1 (u32 _) => (unfold u32; zconst; lia) : u32.

Ltac u32_simpl := rewrite ?conv_u32 by auto 10 with u32.

(** Evaluate the tests on literals left by the typing of an operator. *)
Ltac eval_tests :=
  repeat match goal with
  | |- context [if ?b then _ else _] =>
      let v := eval vm_compute in b in
      lazymatch v with
      | true => change b with true
      | false => change b with false
      end; cbv iota
  end.

(** ** Hash finaliser *)

Lemma murmurHash3_by_size_4_Compute_eq h :
  murmurHash3_by_size_4_Compute sovf h = Some (mix32 (h mod 2 ^ 32)).
Proof.
  unfold murmurHash3_by_size_4_Compute.
  change (param uint32_t h) with (V U32 (h mod 2 ^ 32)).
  generalize (u32_mod h). generalize (h mod 2 ^ 32). clear h. intros h Hh.
  step; eval_tests; next.
  step; rewrite arith_unsigned by reflexivity; next.
  step; eval_tests; next.
  step; rewrite arith_unsigned by reflexivity; next.
  step; eval_tests; next.
  fin. f_equal. cbn [bits].
  change (conv U32 2246822507) with 2246822507.
  change (conv U32 3266489909) with 3266489909.
  unfold mix32, mix32_steps, fold_left, run_step32.
  u32_simpl. reflexivity.
Qed.

Lemma MurmurHash3_32_eq T h :
  sizeof T = 4%nat ->
  MurmurHash3 sovf T h = Some (conv T (mix32 (h mod 2 ^ 32))).
Proof.
  intros HT. unfold MurmurHash3. rewrite HT. cbn [murmurHash3_by_size].
  rewrite murmurHash3_by_size_4_Compute_eq. unfold bind, ret, cast. cbn [num].
  do 3 f_equal. destruct T; try discriminate HT; fin; range.
Qed.

(** C6.  On a 32-bit type, [MurmurHash3(h)] is the five-step sequence
    [h ^= h >> 16; h *= 0x85ebca6b; h ^= h >> 13; h *= 0xc2b2ae35;
    h ^= h >> 16] computed on residues modulo [2 ^ 32], applied to the input
    read as unsigned and with its result read back in the type of the input;
    equal inputs give equal outputs. *)
Theorem MurmurHash3_32_is_mix32 T :
  sizeof T = 4%nat ->
  (forall h, MurmurHash3 sovf T h = Some (conv T (mix32 (h mod 2 ^ 32)))) /\
  (forall h1 h2, h1 = h2 -> MurmurHash3 sovf T h1 = MurmurHash3 sovf T h2).
Proof.
  intros HT. split.
  - intros h. apply MurmurHash3_32_eq, HT.
  - intros h1 h2 ->. reflexivity.
Qed.

Lemma Some_inj {A : Type} (x y : A) : Some x = Some y -> x = y.
Proof. intros H. injection H as H. exact H. Qed.

(** *** Each step is invertible *)

Lemma xorshift16_involutive h :
  u32 h ->
  Z.lxor (Z.lxor h (Z.shiftr h 16)) (Z.shiftr (Z.lxor h (Z.shiftr h 16)) 16) = h.
Proof.
  intros Hh. apply u32_bits in Hh. destruct Hh as [_ Hhigh].
  apply Z.bits_inj'. intros i Hi.
  rewrite !Z.lxor_spec, !Z.shiftr_spec, !Z.lxor_spec, !Z.shiftr_spec by lia.
  rewrite (Hhigh (i + 16 + 16)) by lia.
  destruct (Z.testbit h i), (Z.testbit h (i + 16)); reflexivity.
Qed.

Lemma xorshift13_undo h :
  u32 h ->
  let g := Z.lxor h (Z.shiftr h 13) in
  Z.lxor (Z.lxor g (Z.shiftr g 13)) (Z.shiftr g (2 * 13)) = h.
Proof.
  intros Hh g. subst g. apply u32_bits in Hh. destruct Hh as [_ Hhigh].
  apply Z.bits_inj'. intros i Hi.
  rewrite !Z.lxor_spec, !Z.shiftr_spec, !Z.lxor_spec, !Z.shiftr_spec by lia.
  rewrite (Hhigh (i + 2 * 13 + 13)) by lia.
  replace (i + 2 * 13) with (i + 13 + 13) by lia.
  destruct (Z.testbit h i), (Z.testbit h (i + 13)),
    (Z.testbit h (i + 13 + 13)); reflexivity.
Qed.

Lemma xorshift13_redo g :
  u32 g ->
  let h := Z.lxor (Z.lxor g (Z.shiftr g 13)) (Z.shiftr g (2 * 13)) in
  Z.lxor h (Z.shiftr h 13) = g.
Proof.
  intros Hg h. subst h. apply u32_bits in Hg. destruct Hg as [_ Hhigh].
  apply Z.bits_inj'. intros i Hi.
  rewrite !Z.lxor_spec, !Z.shiftr_spec, !Z.lxor_spec, !Z.shiftr_spec by lia.
  rewrite (Hhigh (i + 13 + 2 * 13)) by lia.
  replace (i + 2 * 13) with (i + 13 + 13) by lia.
  destruct (Z.testbit g i), (Z.testbit g (i + 13)),
    (Z.testbit g (i + 13 + 13)); reflexivity.
Qed.

Lemma mul_undo c c' h :
  u32 h -> (c * c') mod 2 ^ 32 = 1 ->
  ((h * c) mod 2 ^ 32 * c') mod 2 ^ 32 = h.
Proof.
  intros Hh Hc.
  rewrite Z.mul_mod_idemp_l, <- Z.mul_assoc, <- Z.mul_mod_idemp_r by lia.
  rewrite Hc, Z.mul_1_r. apply Z.mod_small, Hh.
Qed.

Lemma u32_mix32 h : u32 h -> u32 (mix32 h).
Proof.
  intros Hh. unfold mix32, mix32_steps, fold_left, run_step32.
  auto 10 with u32.
Qed.

Lemma u32_unmix32 h : u32 h -> u32 (unmix32 h).
Proof.
  intros Hh. unfold unmix32, unmix32_steps, fold_left, undo_step32.
  cbn [Z.leb Z.compare Pos.compare Pos.compare_cont].
  auto 10 with u32.
Qed.

Lemma unmix32_mix32 h : u32 h -> unmix32 (mix32 h) = h.
Proof.
  intros Hh. unfold unmix32, unmix32_steps, mix32, mix32_steps, fold_left.
  unfold undo_step32, run_step32.
  cbn [Z.leb Z.compare Pos.compare Pos.compare_cont].
  rewrite xorshift16_involutive by auto 10 with u32.
  rewrite mul_undo by (auto 10 with u32 || reflexivity).
  rewrite xorshift13_undo by auto 10 with u32.
  rewrite mul_undo by (auto 10 with u32 || reflexivity).
  apply xorshift16_involutive, Hh.
Qed.

Lemma mix32_unmix32 h : u32 h -> mix32 (unmix32 h) = h.
Proof.
  intros Hh. unfold unmix32, unmix32_steps, mix32, mix32_steps, fold_left.
  unfold undo_step32, run_step32.
  cbn [Z.leb Z.compare Pos.compare Pos.compare_cont].
  rewrite xorshift16_involutive by auto 10 with u32.
  rewrite mul_undo by (auto 10 with u32 || reflexivity).
  rewrite xorshift13_redo by auto 10 with u32.
  rewrite mul_undo by (auto 10 with u32 || reflexivity).
  apply xorshift16_involutive, Hh.
Qed.

(** C10.  On a 32-bit type the finaliser is a bijection: two values of the
    type with the same hash are equal, and every value of the type is the
    hash of one. *)
Theorem MurmurHash3_32_bijective T :
  sizeof T = 4%nat ->
  (forall a b, in_range T a -> in_range T b ->
     MurmurHash3 sovf T a = MurmurHash3 sovf T b -> a = b) /\
  (forall y, in_range T y ->
     exists x, in_range T x /\ MurmurHash3 sovf T x = Some y).
Proof.
  intros HT.
  assert (Hb : bits T = 32) by (destruct T; try discriminate HT; reflexivity).
  split.
  - intros a b Ha Hb' H. rewrite !MurmurHash3_32_eq in H by assumption.
    apply Some_inj, conv_inj_mod in H. rewrite Hb in H.
    rewrite (Z.mod_small (mix32 (a mod _))) in H by (apply u32_mix32, u32_mod).
    rewrite (Z.mod_small (mix32 (b mod _))) in H by (apply u32_mix32, u32_mod).
    apply (f_equal unmix32) in H.
    rewrite !unmix32_mix32 in H by apply u32_mod.
    apply (in_range_mod_inj T); rewrite ?Hb; assumption.
  - intros y Hy. exists (conv T (unmix32 (y mod 2 ^ 32))). split.
    + apply conv_range.
    + rewrite MurmurHash3_32_eq by assumption. f_equal.
      assert (E : conv T (unmix32 (y mod 2 ^ 32)) mod 2 ^ 32 =
                  unmix32 (y mod 2 ^ 32)).
      { pose proof (conv_mod T (unmix32 (y mod 2 ^ 32))) as E.
        rewrite Hb in E. rewrite E.
        apply Z.mod_small, u32_unmix32, u32_mod. }
      rewrite E, mix32_unmix32 by apply u32_mod.
      rewrite <- (conv_id T y Hy) at 2. apply conv_eq_mod.
      rewrite Hb. apply Z.mod_mod. lia.
Qed.

(** ** Bit counting *)

(** A positive number is an odd multiple of [2 ^ ntz]. *)
Lemma ntz_odd_part x : 0 < x -> exists m, 0 <= m /\ x = 2 ^ ntz x * (2 * m + 1).
Proof.
  destruct x as [ | p | p]; try lia. intros _.
  induction p as [p _ | p [m [Hm IH]] | ].
  - exists (Z.pos p). split; [lia | ]. cbn [ntz trailing_zeros Z.of_nat]. lia.
  - exists m. split; [assumption | ].
    cbn [ntz trailing_zeros] in *. rewrite Nat2Z.inj_succ, Z.pow_succ_r by lia.
    rewrite <- Z.mul_assoc, <- IH. lia.
  - exists 0. split; [lia | reflexivity].
Qed.

Lemma ntz_nonneg x : 0 <= ntz x.
Proof. destruct x; cbn; lia. Qed.

Lemma ntz_lowest_set x :
  0 < x ->
  Z.testbit x (ntz x) = true /\
  (forall i, 0 <= i < ntz x -> Z.testbit x i = false).
Proof.
  intros Hx. destruct (ntz_odd_part x Hx) as [m [Hm E]].
  pose proof (ntz_nonneg x) as Hn. split.
  - rewrite E at 1. rewrite Z.mul_comm, Z.mul_pow2_bits by assumption.
    rewrite Z.sub_diag, Z.bit0_odd, Z.add_comm, Z.odd_add_mul_2. reflexivity.
  - intros i Hi. rewrite E at 1.
    rewrite Z.mul_comm. apply Z.mul_pow2_bits_low. lia.
Qed.

Lemma ntz_bound x n : 0 <= n -> 0 < x < 2 ^ n -> ntz x < n.
Proof.
  intros Hn Hx. destruct (ntz_odd_part x ltac:(lia)) as [m [Hm E]].
  pose proof (ntz_nonneg x) as H0.
  apply (Z.pow_lt_mono_r_iff 2); [lia | lia | ].
  assert (0 < 2 ^ ntz x) by (apply Z.pow_pos_nonneg; lia). nia.
Qed.

Lemma land_double a b : Z.land (2 * a) (2 * b) = 2 * Z.land a b.
Proof.
  rewrite <- !(Z.mul_comm _ 2). change 2 with (2 ^ 1) at 1 2 3.
  rewrite <- !Z.shiftl_mul_pow2 by lia. symmetry. apply Z.shiftl_land.
Qed.

Lemma land_odd_opp a : Z.land (2 * a + 1) (- (2 * a + 1)) = 1.
Proof.
  apply Z.bits_inj'. intros i Hi. rewrite Z.land_spec.
  destruct (Z.eq_dec i 0) as [-> | Hnz].
  - rewrite Z.testbit_odd_0.
    replace (- (2 * a + 1)) with (2 * (- a - 1) + 1) by lia.
    rewrite Z.testbit_odd_0. reflexivity.
  - replace i with (Z.succ (i - 1)) by lia.
    rewrite Z.bits_opp by lia.
    replace (Z.pred (2 * a + 1)) with (2 * a) by lia.
    rewrite Z.testbit_odd_succ, Z.testbit_even_succ by lia.
    rewrite (Z.bits_above_log2 1) by (cbn; lia). apply andb_negb_r.
Qed.

(** [x & -x] isolates the lowest set bit. *)
Lemma land_opp_lowest x : 0 < x -> Z.land x (- x) = 2 ^ ntz x.
Proof.
  destruct x as [ | p | p]; try lia. intros _.
  induction p as [p _ | p IH | ].
  - change (Z.pos p~1) with (2 * Z.pos p + 1). apply land_odd_opp.
  - change (Z.pos p~0) with (2 * Z.pos p).
    replace (- (2 * Z.pos p)) with (2 * - Z.pos p) by lia.
    rewrite land_double, IH.
    change (2 * Z.pos p) with (Z.pos p~0). cbn [ntz trailing_zeros].
    rewrite Nat2Z.inj_succ, Z.pow_succ_r by lia. reflexivity.
  - reflexivity.
Qed.

(** [popcnt32] on the words [0...01...1], by evaluation of the 33 cases. *)
Lemma popcnt32_ones k : 0 <= k <= 32 -> popcnt32 sovf (2 ^ k - 1) = Some k.
Proof.
  intros Hk. rewrite <- (Z2Nat.id k) by lia.
  assert (Hn : (Z.to_nat k <= 32)%nat) by lia.
  clear Hk. generalize dependent (Z.to_nat k). clear k. intros n Hn.
  do 33 (destruct n as [ | n]; [vm_compute; reflexivity | ]). lia.
Qed.

Lemma ctz32_unfold x :
  ctz32 sovf x =
  popcnt32 sovf ((Z.land (x mod 2 ^ 32) ((- x) mod 2 ^ 32) - 1) mod 2 ^ 32).
Proof.
  unfold ctz32. change (param uint32_t x) with (V U32 (x mod 2 ^ 32)).
  step; rewrite arith_unsigned by reflexivity; next.
  step; rewrite arith_unsigned by reflexivity; next.
  cbn [num bits]. f_equal.
  change (conv U32 1) with 1.
  rewrite (conv_u32 (x mod 2 ^ 32)) by apply u32_mod.
  rewrite (conv_u32 (_ mod 2 ^ 32)) by apply u32_mod.
  rewrite conv_u32 by (apply u32_land, u32_mod).
  replace (- (x mod 2 ^ 32) mod 2 ^ 32) with (- x mod 2 ^ 32) by zlia.
  reflexivity.
Qed.

(** C7.  The portable [ctz32] is [popcnt32((x & -x) - 1)] in 32-bit unsigned
    arithmetic; it returns 32 for [x = 0] and, for [x <> 0], the number of
    zero bits below the lowest set bit of [x].  In particular
    [ctz32(16) == 4], [clz32(16) == 27] and [popcnt32(16) == 1]. *)
Theorem ctz32_spec x :
  0 <= x < 2 ^ 32 ->
  ctz32 sovf x =
    popcnt32 sovf ((Z.land x ((- x) mod 2 ^ 32) - 1) mod 2 ^ 32) /\
  ctz32 sovf x = Some (if x =? 0 then 32 else ntz x) /\
  (x <> 0 ->
     Z.testbit x (ntz x) = true /\
     forall i, 0 <= i < ntz x -> Z.testbit x i = false) /\
  ctz32 sovf 16 = Some 4 /\ clz32 sovf 16 = Some 27 /\
  popcnt32 sovf 16 = Some 1.
Proof.
  intros Hx. rewrite ctz32_unfold, (Z.mod_small x) by assumption.
  repeat split; try reflexivity.
  - destruct (Z.eqb_spec x 0) as [-> | Hnz]; [reflexivity | ].
    assert (Hp : 0 < x) by lia.
    pose proof (ntz_nonneg x) as H0.
    pose proof (ntz_bound x 32 ltac:(lia) ltac:(lia)) as H32.
    rewrite <- (Z.mod_small x (2 ^ 32)) at 1 by assumption.
    rewrite <- land_mod_r, (Z.mod_small x) by (assumption || lia).
    rewrite land_opp_lowest by assumption.
    assert (0 < 2 ^ ntz x) by (apply Z.pow_pos_nonneg; lia).
    assert (2 ^ ntz x < 2 ^ 32) by (apply Z.pow_lt_mono_r; lia).
    rewrite Z.mod_small by lia. apply popcnt32_ones. lia.
  - apply ntz_lowest_set. lia.
  - apply ntz_lowest_set. lia.
Qed.

(** ** Bit smearing *)

Lemma bit_length_pos y : 0 < y -> Z.log2_up (y + 1) = Z.log2 y + 1.
Proof.
  intros Hy. rewrite Z.log2_up_eqn by lia.
  replace (Z.pred (y + 1)) with y by lia. lia.
Qed.

Lemma log2_lor_shiftr y s :
  0 <= y -> 0 <= s -> Z.log2 (Z.lor y (Z.shiftr y s)) = Z.log2 y.
Proof.
  intros Hy Hs.
  assert (Hr : 0 <= Z.shiftr y s) by (apply Z.shiftr_nonneg; assumption).
  rewrite Z.log2_lor by assumption. apply Z.max_l.
  apply Z.log2_le_mono. rewrite Z.shiftr_div_pow2 by assumption.
  assert (0 < 2 ^ s) by (apply Z.pow_pos_nonneg; lia).
  apply Z.div_le_upper_bound; nia.
Qed.

Lemma bit_length_smear y s :
  0 <= y -> 0 <= s ->
  Z.log2_up (Z.lor y (Z.shiftr y s) + 1) = Z.log2_up (y + 1).
Proof.
  intros Hy Hs. destruct (Z.eq_dec y 0) as [-> | Hnz].
  - rewrite Z.shiftr_0_l. reflexivity.
  - assert (Hr : 0 <= Z.shiftr y s) by (apply Z.shiftr_nonneg; assumption).
    assert (Hl : 0 <= Z.lor y (Z.shiftr y s)) by (apply Z.lor_nonneg; tauto).
    assert (Hl0 : Z.lor y (Z.shiftr y s) <> 0).
    { intros E. apply Z.lor_eq_0_iff in E. tauto. }
    rewrite !bit_length_pos, log2_lor_shiftr by lia. reflexivity.
Qed.

Lemma lor_shiftr_bound n y s :
  0 <= n -> 0 <= s -> 0 <= y < 2 ^ n -> 0 <= Z.lor y (Z.shiftr y s) < 2 ^ n.
Proof.
  intros Hn Hs Hy.
  assert (Hr : 0 <= Z.shiftr y s) by (apply Z.shiftr_nonneg; lia).
  assert (Hl : 0 <= Z.lor y (Z.shiftr y s)) by (apply Z.lor_nonneg; lia).
  split; [assumption | ].
  destruct (Z.eq_dec y 0) as [-> | Hnz].
  - rewrite Z.shiftr_0_l. cbn. lia.
  - assert (Hl0 : Z.lor y (Z.shiftr y s) <> 0).
    { intros E. apply Z.lor_eq_0_iff in E. tauto. }
    apply Z.log2_lt_pow2; [lia | ].
    rewrite log2_lor_shiftr by lia. apply Z.log2_lt_pow2; lia.
Qed.

Lemma smeared_init w y : 0 <= w -> 0 <= y < 2 ^ w -> smeared w y.
Proof.
  intros Hw Hy i Hi Hb. exfalso.
  destruct (Z.eq_dec y 0) as [-> | Hnz].
  - rewrite Z.bits_0 in Hb. discriminate.
  - rewrite Z.bits_above_log2 in Hb; [discriminate | lia | ].
    apply Z.lt_le_trans with w; [apply Z.log2_lt_pow2; lia | lia].
Qed.

Lemma smeared_step s y :
  0 <= s -> smeared (2 * s) y -> smeared s (Z.lor y (Z.shiftr y s)).
Proof.
  intros Hs Hsm i Hi. rewrite !Z.lor_spec, !Z.shiftr_spec by lia.
  intros Hb. apply orb_true_iff in Hb. destruct Hb as [Hb | Hb].
  - rewrite Hb. apply orb_true_r.
  - replace (i + s + s) with (i + 2 * s) in Hb by lia.
    rewrite (Hsm i Hi Hb). reflexivity.
Qed.

(** A number whose set bits are closed under the predecessor is all ones
    below its bit length. *)
Lemma smeared_one y :
  0 <= y -> smeared 1 y -> 1 + y = 2 ^ Z.log2_up (y + 1).
Proof.
  intros Hy Hsm. destruct (Z.eq_dec y 0) as [-> | Hnz]; [reflexivity | ].
  rewrite bit_length_pos by lia.
  assert (Hlow : forall n : nat,
             (Z.of_nat n <= Z.log2 y) ->
             Z.testbit y (Z.log2 y - Z.of_nat n) = true).
  { induction n as [ | n IH]; intros Hn.
    - rewrite Z.sub_0_r. apply Z.bit_log2. lia.
    - apply Hsm; [lia | ].
      replace (Z.log2 y - Z.of_nat (S n) + 1) with (Z.log2 y - Z.of_nat n)
        by lia.
      apply IH. lia. }
  assert (E : y = Z.ones (Z.log2 y + 1)).
  { apply Z.bits_inj'. intros i Hi.
    pose proof (Z.log2_nonneg y) as Hl.
    destruct (Z.le_gt_cases i (Z.log2 y)) as [L | L].
    - rewrite Z.ones_spec_low by lia.
      replace i with (Z.log2 y - Z.of_nat (Z.to_nat (Z.log2 y - i))) by lia.
      apply Hlow. lia.
    - rewrite Z.ones_spec_high by lia. apply Z.bits_above_log2; lia. }
  rewrite E at 1. rewrite Z.ones_equiv. lia.
Qed.

(** ** [NextPowOfTwo]: the bound on the nesting is never reached *)

Lemma param_id T z : in_range T z -> param T z = V T z.
Proof. intros H. unfold param. rewrite (conv_id _ _ H). reflexivity. Qed.

Lemma shr_int_1 s :
  in_range int s -> shr (V int s) (lit 1) = Some (V int (Z.shiftr s 1)).
Proof.
  intros Hs. unfold shr, lit, shift_ok. cbn [ty num]. 
  change (promote int) with int. rewrite (conv_id _ _ Hs). reflexivity.
Qed.

Lemma shr_defined a n v : shr a n = Some v -> 0 <= num n.
Proof.
  unfold shr, shift_ok. destruct (0 <=? num n) eqn:E; [ | discriminate ].
  intros _. apply Z.leb_le, E.
Qed.

Lemma half_range s : in_range int s -> 0 < s -> in_range int (Z.shiftr s 1) /\ Z.shiftr s 1 < s.
Proof.
  intros Hs Hp. rewrite Z.shiftr_div_pow2 by lia. change (2 ^ 1) with 2.
  unfold int in *. unfold_range. zlia.
Qed.

Lemma NextPowOfTwo_rec_S d T x s :
  NextPowOfTwo_rec sovf (S d) T x s =
  (r <- (if eqv (param int s) (lit 0)
         then add sovf (lit 1) (param T x)
         else t <- shr (param T x) (param int s) ;;
              s' <- shr (param int s) (lit 1) ;;
              z <- NextPowOfTwo_rec sovf d T (num (bor (param T x) t)) (num s') ;;
              ret (V T z)) ;;
   ret (num (cast T r))).
Proof. reflexivity. Qed.

Lemma NextPowOfTwo_rec_stable d T x s :
  in_range int s -> (Z.to_nat s < d)%nat ->
  NextPowOfTwo_rec sovf (S d) T x s = NextPowOfTwo_rec sovf d T x s.
Proof.
  revert x s. induction d as [ | d IH]; intros x s Hs Hd; [lia | ].
  rewrite (NextPowOfTwo_rec_S (S d)), (NextPowOfTwo_rec_S d).
  rewrite !(param_id int s Hs).
  destruct (eqv (V int s) (lit 0)) eqn:Ez; [reflexivity | ].
  destruct (shr (param T x) (V int s)) as [t | ] eqn:Et; [ | reflexivity ].
  apply shr_defined in Et. cbn [num] in Et.
  assert (Hnz : s <> 0).
  { intros ->. discriminate Ez. }
  destruct (half_range s Hs ltac:(lia)) as [Hh Hlt].
  rewrite shr_int_1 by assumption. unfold bind at 2 3 6 7. cbn [num].
  rewrite (IH _ _ Hh) by lia. reflexivity.
Qed.

Lemma NextPowOfTwo_rec_enough d T x s :
  in_range int s -> (Z.to_nat s < d)%nat ->
  NextPowOfTwo_rec sovf d T x s = NextPowOfTwo sovf T x s.
Proof.
  intros Hs Hd. unfold NextPowOfTwo.
  induction d as [ | d IH]; [lia | ].
  destruct (Nat.eq_dec d (Z.to_nat s)) as [-> | Hne]; [reflexivity | ].
  rewrite NextPowOfTwo_rec_stable by (assumption || lia). apply IH. lia.
Qed.

(** The recursive equation of the source. *)
Lemma NextPowOfTwo_eq T x s :
  in_range int s ->
  NextPowOfTwo sovf T x s =
  (let x := param T x in
   let s := param int s in
   r <- (if eqv s (lit 0)
         then add sovf (lit 1) x
         else t <- shr x s ;;
              s' <- shr s (lit 1) ;;
              z <- NextPowOfTwo sovf T (num (bor x t)) (num s') ;;
              ret (V T z)) ;;
   ret (num (cast T r))).
Proof.
  intros Hs. unfold NextPowOfTwo at 1. rewrite NextPowOfTwo_rec_S. cbv zeta.
  rewrite !(param_id int s Hs).
  destruct (eqv (V int s) (lit 0)) eqn:Ez; [reflexivity | ].
  destruct (shr (param T x) (V int s)) as [t | ] eqn:Et; [ | reflexivity ].
  apply shr_defined in Et. cbn [num] in Et.
  assert (Hnz : s <> 0).
  { intros ->. discriminate Ez. }
  destruct (half_range s Hs ltac:(lia)) as [Hh Hlt].
  rewrite shr_int_1 by assumption. unfold bind at 2 3 6 7. cbn [num].
  rewrite NextPowOfTwo_rec_enough by (assumption || lia). reflexivity.
Qed.

Lemma NextPowOfTwo_range T x s z :
  NextPowOfTwo sovf T x s = Some z -> in_range T z.
Proof.
  unfold NextPowOfTwo. rewrite NextPowOfTwo_rec_S.
  match goal with
  | |- bind ?m _ = _ -> _ => destruct m as [r | ]; [ | discriminate ]
  end.
  unfold bind, ret, cast. cbn [num]. intros H. apply Some_inj in H. subst z.
  apply conv_range.
Qed.

(** ** [NextPowOfTwo] smears and adds one *)

Lemma shiftr_le y s : 0 <= y -> 0 <= s -> 0 <= Z.shiftr y s <= y.
Proof.
  intros Hy Hs. rewrite Z.shiftr_div_pow2 by assumption.
  assert (0 < 2 ^ s) by (apply Z.pow_pos_nonneg; lia).
  split; [apply Z.div_pos; lia | apply Z.div_le_upper_bound; nia].
Qed.

Lemma promote_range T z : in_range T z -> in_range (promote T) z.
Proof.
  destruct T; unfold_range; zlia.
Qed.

Lemma shr_val T y s :
  in_range T y -> 0 <= s < bits (promote T) ->
  shr (V T y) (V int s) = Some (V (promote T) (Z.shiftr y s)).
Proof.
  intros Hy Hs. unfold shr, shift_ok. cbn [ty num].
  replace ((0 <=? s) && (s <? bits (promote T))) with true
    by (symmetry; apply andb_true_intro; split;
        [apply Z.leb_le | apply Z.ltb_lt]; lia).
  rewrite conv_id by (apply promote_range, Hy). reflexivity.
Qed.

Lemma bor_val T y t :
  in_range T y -> in_range (promote T) t ->
  bor (V T y) (V (promote T) t) = V (promote T) (Z.lor y t).
Proof.
  intros Hy Ht. apply promote_range in Hy.
  unfold bor. cbn [ty num].
  replace (common T (promote T)) with (promote T) by (destruct T; reflexivity).
  rewrite !conv_id by assumption. reflexivity.
Qed.

Lemma eqv_int_0 s : in_range int s -> eqv (V int s) (lit 0) = (s =? 0).
Proof.
  intros Hs. unfold eqv, lit. cbn [ty num]. change (common int int) with int.
  rewrite (conv_id _ _ Hs). reflexivity.
Qed.

Lemma max_of_pow2 T : exists n, 0 <= n /\ max_of T = 2 ^ n - 1.
Proof.
  destruct T; unfold max_of; cbn [is_signed bits];
    eexists; (split; [ | reflexivity]); lia.
Qed.

Lemma NextPowOfTwo_step T y s :
  0 <= y <= max_of T -> 0 < s < bits (promote T) ->
  NextPowOfTwo sovf T y s =
  NextPowOfTwo sovf T (Z.lor y (Z.shiftr y s)) (Z.shiftr s 1).
Proof.
  intros Hy Hs.
  assert (HyT : in_range T y) by (destruct T; unfold_range; zlia).
  assert (Hsi : in_range int s) by (destruct T; unfold int; cbn in Hs; unfold_range; zlia).
  rewrite NextPowOfTwo_eq by assumption. cbv zeta.
  rewrite (param_id int s Hsi), (param_id T y HyT), (eqv_int_0 s Hsi).
  replace (s =? 0) with false by (symmetry; apply Z.eqb_neq; lia).
  rewrite shr_val by (assumption || lia).
  rewrite shr_int_1 by assumption. unfold bind at 2 3. 
  rewrite bor_val
    by (try assumption; apply promote_range;
        pose proof (shiftr_le y s); destruct T; unfold_range; zlia).
  cbn [num].
  destruct (NextPowOfTwo sovf T _ _) as [z | ] eqn:E; [ | reflexivity ].
  apply NextPowOfTwo_range in E. unfold bind, ret, cast. cbn [num].
  rewrite (conv_id _ _ E). reflexivity.
Qed.

Lemma NextPowOfTwo_base T y :
  0 <= y <= max_of T ->
  sovf = Wraps \/ is_signed T = false \/ 1 + y <= max_of (promote T) ->
  NextPowOfTwo sovf T y 0 = Some (conv T (1 + y)).
Proof.
  intros Hy Hovf.
  assert (HyT : in_range T y) by (destruct T; unfold_range; zlia).
  rewrite NextPowOfTwo_eq by (unfold int; unfold_range; zlia). cbv zeta.
  rewrite (param_id T y HyT). change (eqv (param int 0) (lit 0)) with true.
  cbv iota.
  destruct Hovf as [W | [U | R]]; destruct T; try discriminate U; step.
  all: first [ rewrite arith_wraps by assumption
             | rewrite arith_unsigned by reflexivity
             | rewrite arith_ok by range ].
  all: next; fin; f_equal; apply conv_eq_mod; range.
Qed.

(** [j] halvings of the shift amount [2 ^ j], then the final increment. *)
Lemma NextPowOfTwo_smear T (j : nat) :
  forall y,
    0 <= y <= max_of T ->
    2 ^ Z.of_nat j < bits (promote T) ->
    smeared (2 ^ Z.of_nat (S j)) y ->
    sovf = Wraps \/ is_signed T = false \/
      2 ^ Z.log2_up (y + 1) <= max_of (promote T) ->
    NextPowOfTwo sovf T y (2 ^ Z.of_nat j) =
    Some (conv T (2 ^ Z.log2_up (y + 1))).
Proof.
  destruct (max_of_pow2 T) as [n [Hn Hmax]].
  assert (Hpow : forall i : nat, 2 ^ Z.of_nat (S i) = 2 * 2 ^ Z.of_nat i)
    by (intros i; rewrite Nat2Z.inj_succ, Z.pow_succ_r by lia; reflexivity).
  assert (Hpos : forall i : nat, 0 < 2 ^ Z.of_nat i)
    by (intros i; apply Z.pow_pos_nonneg; lia).
  induction j as [ | j IH]; intros y Hy Hs Hsm Hovf.
  - change (2 ^ Z.of_nat 0) with 1 in *.
    pose proof (lor_shiftr_bound n y 1 Hn ltac:(lia) ltac:(lia)) as Hb.
    rewrite NextPowOfTwo_step by (assumption || lia).
    change (Z.shiftr 1 1) with 0.
    rewrite Hpow in Hsm. apply smeared_step in Hsm; [ | lia].
    pose proof (smeared_one (Z.lor y (Z.shiftr y 1)) ltac:(lia) Hsm) as E.
    rewrite bit_length_smear in E by lia.
    rewrite NextPowOfTwo_base; [rewrite E; reflexivity | lia | rewrite E; exact Hovf].
  - pose proof (Hpos (S j)) as Hp. pose proof (Hpos j) as Hp'.
    pose proof (lor_shiftr_bound n y (2 ^ Z.of_nat (S j)) Hn ltac:(lia)
                  ltac:(lia)) as Hb.
    rewrite NextPowOfTwo_step by (assumption || lia).
    replace (Z.shiftr (2 ^ Z.of_nat (S j)) 1) with (2 ^ Z.of_nat j)
      by (rewrite Z.shiftr_div_pow2, Hpow by lia; change (2 ^ 1) with 2;
          symmetry; rewrite Z.mul_comm; apply Z.div_mul; lia).
    rewrite IH.
    + rewrite bit_length_smear by lia. reflexivity.
    + lia.
    + rewrite Hpow in Hs. lia.
    + rewrite (Hpow (S j)) in Hsm. apply smeared_step; [lia | exact Hsm].
    + rewrite bit_length_smear by lia. exact Hovf.
Qed.

(** ** [RoundToNextPowOfTwo] *)

Lemma eqv_0 T x : in_range T x -> eqv (V T x) (lit 0) = (x =? 0).
Proof. intros Hx. destruct T; fin; range. Qed.

Lemma sub_1 T x :
  0 < x <= max_of T ->
  sub sovf (V T x) (lit 1) = Some (V (common T int) (x - 1)).
Proof.
  intros Hx. destruct T.
  all: lazymatch goal with
       | |- ?m = ?R => let m' := ops_in m in change (m' = R)
       end.
  all: first [ rewrite arith_unsigned by reflexivity
             | rewrite arith_ok by range ].
  all: do 2 f_equal; range.
Qed.

(** [static_cast<int>(4 * sizeof(T))] is half the width of [T]. *)
Lemma half_width T :
  exists j : nat,
    mul sovf (lit 4) (V size_t (Z.of_nat (sizeof T))) =
      Some (V U64 (2 ^ Z.of_nat j)) /\
    conv int (2 ^ Z.of_nat j) = 2 ^ Z.of_nat j /\
    2 ^ Z.of_nat (S j) = bits T /\
    2 ^ Z.of_nat j < bits (promote T).
Proof.
  destruct T;
    [ exists 2%nat | exists 2%nat | exists 3%nat | exists 3%nat
    | exists 4%nat | exists 4%nat | exists 5%nat | exists 5%nat ];
    repeat split; reflexivity.
Qed.

Lemma RoundToNextPowOfTwo_zero T : RoundToNextPowOfTwo sovf T 0 = Some 0.
Proof. destruct T; reflexivity. Qed.

Lemma RoundToNextPowOfTwo_pos T x :
  0 < x <= max_of T ->
  sovf = Wraps \/ is_signed T = false \/
    2 ^ Z.log2_up x <= max_of (promote T) ->
  RoundToNextPowOfTwo sovf T x = Some (conv T (2 ^ Z.log2_up x)).
Proof.
  intros Hx Hovf.
  assert (HxT : in_range T x) by (destruct T; unfold_range; zlia).
  destruct (half_width T) as [j [Hmul [Hconv [Hw Hlt]]]].
  unfold RoundToNextPowOfTwo.
  rewrite (param_id T x HxT), (eqv_0 T x HxT).
  replace (x =? 0) with false by (symmetry; apply Z.eqb_neq; lia).
  rewrite sub_1, Hmul by assumption. unfold bind at 2 3. unfold cast.
  cbn [num]. rewrite Hconv.
  rewrite NextPowOfTwo_smear.
  - unfold bind, ret. cbn [num]. 
    replace (x - 1 + 1) with x by lia.
    rewrite (conv_id T (conv T _)) by apply conv_range. reflexivity.
  - lia.
  - assumption.
  - rewrite Hw. apply smeared_init; destruct T; unfold_range; zlia.
  - replace (x - 1 + 1) with x by lia. assumption.
Qed.

Lemma conv_max_succ T : conv T (max_of T + 1) = min_of T.
Proof. destruct T; reflexivity. Qed.

Lemma RoundToNextPowOfTwo_min T :
  sovf = Wraps \/ is_signed T = false \/ bits T < 32 ->
  RoundToNextPowOfTwo sovf T (min_of T) = Some (min_of T).
Proof.
  intros H. destruct T, sovf; try reflexivity; exfalso.
  all: destruct H as [H | [H | H]]; (discriminate H || (cbn in H; lia)).
Qed.

Lemma log2_up_bounds x :
  0 < x -> x <= 2 ^ Z.log2_up x /\ 2 ^ Z.log2_up x < 2 * x.
Proof.
  intros Hx. destruct (Z.eq_dec x 1) as [-> | Hne]; [cbn; lia | ].
  destruct (Z.log2_up_spec x ltac:(lia)) as [Hlo Hhi].
  split; [assumption | ].
  assert (Hl : 0 < Z.log2_up x) by (apply Z.log2_up_pos; lia).
  replace (Z.log2_up x) with (Z.succ (Z.pred (Z.log2_up x))) by lia.
  rewrite Z.pow_succ_r by lia. lia.
Qed.

(** C4.  [RoundToNextPowOfTwo(0) == 0]; for every [x > 0] such that some
    power of two not below [x] is representable in [T], the result is the
    smallest power of two [>= x]; every representable power of two is mapped
    to itself; [RoundToNextPowOfTwo(5) == 8]. *)
Theorem RoundToNextPowOfTwo_smallest_pow2 T :
  RoundToNextPowOfTwo sovf T 0 = Some 0 /\
  (forall x, 0 < x -> (exists p, is_pow2 p /\ x <= p <= max_of T) ->
     exists r, RoundToNextPowOfTwo sovf T x = Some r /\
               is_pow2 r /\ x <= r /\
               forall p, is_pow2 p -> x <= p -> r <= p) /\
  (forall x, is_pow2 x -> x <= max_of T ->
     RoundToNextPowOfTwo sovf T x = Some x) /\
  RoundToNextPowOfTwo sovf T 5 = Some 8.
Proof.
  assert (Hmin : forall x p, 0 < x -> is_pow2 p -> x <= p ->
                   2 ^ Z.log2_up x <= p).
  { intros x p Hx [k [Hk ->]] Hle. apply Z.pow_le_mono_r; [lia | ].
    apply Z.log2_up_le_pow2; assumption. }
  assert (Hmain : forall x, 0 < x -> 2 ^ Z.log2_up x <= max_of T ->
            RoundToNextPowOfTwo sovf T x = Some (2 ^ Z.log2_up x)).
  { intros x Hx Hle. pose proof (log2_up_bounds x Hx) as [Hlo _].
    assert (HT : in_range T (2 ^ Z.log2_up x))
      by (destruct T; unfold_range; zlia).
    rewrite RoundToNextPowOfTwo_pos.
    - rewrite (conv_id _ _ HT). reflexivity.
    - lia.
    - right. right. apply promote_range in HT. apply HT. }
  split; [apply RoundToNextPowOfTwo_zero | ].
  split; [ | split].
  - intros x Hx [p [Hp Hle]]. exists (2 ^ Z.log2_up x).
    pose proof (Hmin x p Hx Hp ltac:(lia)).
    repeat split.
    + apply Hmain; lia.
    + exists (Z.log2_up x). split; [apply Z.log2_up_nonneg | reflexivity].
    + apply log2_up_bounds, Hx.
    + intros q Hq Hxq. apply Hmin; assumption.
  - intros x [k [Hk ->]] Hle.
    assert (0 < 2 ^ k) by (apply Z.pow_pos_nonneg; lia).
    rewrite Hmain; rewrite ?Z.log2_up_pow2 by assumption; [reflexivity | lia | lia].
  - destruct T, sovf; reflexivity.
Qed.

(** Idempotence.  On a signed type at least as wide as [int] and for
    [x > 2 ^ (bits - 2)] the final [1 + x] overflows, and so does the [x - 1]
    of the second application: there the result depends on the reading of
    signed overflow. *)
Lemma RoundToNextPowOfTwo_twice T x :
  in_range T x -> 0 < x ->
  sovf = Wraps \/ is_signed T = false \/ bits T < 32 \/
    x <= 2 ^ (bits T - 2) ->
  exists y, RoundToNextPowOfTwo sovf T x = Some y /\
            RoundToNextPowOfTwo sovf T y = Some y.
Proof.
  intros HxT Hx Hovf.
  pose proof (log2_up_bounds x Hx) as [Hlo Hhi].
  pose proof (Z.log2_up_nonneg x) as He.
  destruct (max_of_pow2 T) as [n [Hn Hmax]].
  assert (Hxm : x <= max_of T) by apply HxT.
  assert (Hsmall : x <= 2 ^ (bits T - 2) -> 2 ^ Z.log2_up x <= max_of T).
  { intros Hs. apply Z.le_trans with (2 ^ (bits T - 2)).
    - apply Z.pow_le_mono_r; [lia | ].
      apply Z.log2_up_le_pow2; (assumption || lia).
    - destruct T; unfold_range; zlia. }
  assert (Hov1 : sovf = Wraps \/ is_signed T = false \/
                 2 ^ Z.log2_up x <= max_of (promote T)).
  { destruct Hovf as [W | [U | [B | S]]]; [tauto | tauto | | ].
    - right. right. destruct T; cbn in B; try lia; unfold_range; zlia.
    - right. right. apply Hsmall in S.
      assert (HT : in_range T (2 ^ Z.log2_up x))
        by (destruct T; unfold_range; zlia).
      apply promote_range in HT. apply HT. }
  exists (conv T (2 ^ Z.log2_up x)).
  split; [apply RoundToNextPowOfTwo_pos; [lia | assumption] | ].
  destruct (Z.le_gt_cases (2 ^ Z.log2_up x) (max_of T)) as [Hle | Hgt].
  - assert (HT : in_range T (2 ^ Z.log2_up x))
      by (destruct T; unfold_range; zlia).
    rewrite (conv_id _ _ HT).
    rewrite RoundToNextPowOfTwo_pos; rewrite ?Z.log2_up_pow2 by assumption.
    + rewrite (conv_id _ _ HT). reflexivity.
    + lia.
    + right. right. apply promote_range in HT. apply HT.
  - assert (E : Z.log2_up x = n).
    { apply Z.le_antisymm.
      - apply Z.lt_succ_r. apply (Z.pow_lt_mono_r_iff 2); [lia | lia | ].
        rewrite Z.pow_succ_r by lia. lia.
      - apply (Z.pow_le_mono_r_iff 2); lia. }
    replace (2 ^ Z.log2_up x) with (max_of T + 1) by (rewrite E; lia).
    rewrite conv_max_succ. apply RoundToNextPowOfTwo_min.
    destruct Hovf as [W | [U | [B | S]]]; [tauto | tauto | tauto | ].
    apply Hsmall in S. lia.
Qed.

End Properties.

(** * Idempotence of [RoundToNextPowOfTwo] under both readings of overflow *)

(** C5.  For every integral type [T] and every [x > 0] of that type, with
    no restriction on the representability of the rounded value,
    [RoundToNextPowOfTwo(RoundToNextPowOfTwo(x)) == RoundToNextPowOfTwo(x)],
    and [RoundToNextPowOfTwo(0) == 0].  With wrapping signed arithmetic this
    holds on every type; it also holds when signed overflow is left
    undefined, wherever none occurs: on the unsigned types, on the types
    narrower than [int], and for [x <= 2 ^ (bits - 2)]. *)
Theorem RoundToNextPowOfTwo_idempotent T x :
  in_range T x -> 0 < x ->
  (exists y, RoundToNextPowOfTwo Wraps T x = Some y /\
             RoundToNextPowOfTwo Wraps T y = Some y) /\
  (is_signed T = false \/ bits T < 32 \/ x <= 2 ^ (bits T - 2) ->
   exists y, RoundToNextPowOfTwo Undefined T x = Some y /\
             RoundToNextPowOfTwo Undefined T y = Some y) /\
  RoundToNextPowOfTwo Wraps T 0 = Some 0 /\
  RoundToNextPowOfTwo Undefined T 0 = Some 0.
Proof.
  intros HxT Hx. repeat split.
  - apply RoundToNextPowOfTwo_twice; auto.
  - intros H. apply RoundToNextPowOfTwo_twice; auto.
  - apply RoundToNextPowOfTwo_zero.
  - apply RoundToNextPowOfTwo_zero.
Qed.

(** * Instances *)

Ltac closed_range := unfold in_range, min_of, max_of; cbn; lia.

Lemma RoundToNextPowOfTwo_idempotent_int32_max :
  in_range I32 2147483647 /\ 0 < 2147483647 /\
  exists y, RoundToNextPowOfTwo Wraps I32 2147483647 = Some y /\
            RoundToNextPowOfTwo Wraps I32 y = Some y.
Proof.
  assert (H : in_range I32 2147483647) by closed_range.
  split; [exact H | split; [lia | ]].
  exact (proj1 (RoundToNextPowOfTwo_idempotent I32 2147483647 H eq_refl)).
Defined.

Lemma RoundToNextPowOfTwo_smallest_pow2_at_5 :
  (exists p, is_pow2 p /\ 5 <= p <= max_of U32) /\
  exists r, RoundToNextPowOfTwo Undefined U32 5 = Some r /\
            is_pow2 r /\ 5 <= r /\
            forall p, is_pow2 p -> 5 <= p -> r <= p.
Proof.
  assert (H : exists p, is_pow2 p /\ 5 <= p <= max_of U32).
  { exists 8. split; [exists 3; split; [lia | reflexivity] | ].
    unfold max_of; cbn; lia. }
  split; [exact H | ].
  exact (proj1 (proj2 (RoundToNextPowOfTwo_smallest_pow2 Undefined U32))
           5 eq_refl H).
Defined.

Lemma Align_bounds_or_wraps_at_57 :
  in_range U32 57 /\ 0 <= 4 <= 30 /\
  exists hi,
    Align Undefined U32 57 (2 ^ 4) = Some hi /\
    (2 ^ 4 | hi) /\
    Align Undefined U32 hi (2 ^ 4) = Some hi /\
    ((2 ^ 4 | 57) -> hi = 57) /\
    (in_range U32 (2 ^ 4 * ((57 + 2 ^ 4 - 1) / 2 ^ 4)) ->
       hi = 2 ^ 4 * ((57 + 2 ^ 4 - 1) / 2 ^ 4) /\ 57 <= hi) /\
    (~ in_range U32 (2 ^ 4 * ((57 + 2 ^ 4 - 1) / 2 ^ 4)) ->
       in_range U32 hi /\
       hi mod 2 ^ bits U32 =
         (2 ^ 4 * ((57 + 2 ^ 4 - 1) / 2 ^ 4)) mod 2 ^ bits U32 /\
       hi < 57).
Proof.
  assert (H : in_range U32 57) by closed_range.
  assert (K : 0 <= 4 <= 30) by lia.
  split; [exact H | split; [exact K | ]].
  exact (Align_bounds_or_wraps Undefined U32 57 4 H K).
Defined.

(** C2, counterexample.  At the top of the range of [std::uint32_t] the sum
    [Address + (AlignTo - 1)] wraps around and [Align] returns 0, a value
    below its argument: [x <= Align(x, a)] fails for [x = 0xFFFFFFFF],
    [a = 16]. *)
Lemma Align_wraps_at_top :
  in_range U32 4294967295 /\
  Align Undefined U32 4294967295 (2 ^ 4) = Some 0 /\
  Align Wraps U32 4294967295 (2 ^ 4) = Some 0 /\
  ~ 4294967295 <= 0.
Proof. repeat split; (closed_range || lia). Qed.

(** [Align] at the top of a narrow signed type: the least multiple of 16
    not below 127 is 128, which [std::int8_t] does not hold. *)
Example Align_int8_wraps :
  Align Wraps I8 127 (2 ^ 4) = Some (-128) /\
  Align Undefined I8 127 (2 ^ 4) = Some (-128).
Proof. split; reflexivity. Qed.

(** [AlignLower] at the inputs of the scenario of the alignment functions,
    and on the type of the pointer overload. *)
Example AlignLower_at_57 :
  AlignLower Undefined U32 57 16 = None /\
  AlignLower Wraps U32 57 16 = None /\
  AlignLower Undefined size_t 57 16 = None.
Proof. repeat split. Qed.

Lemma FlagToggle_twice_int8 :
  in_range I8 (-5) /\
  FlagToggle I8 (FlagToggle I8 (-5) 4294967295) 4294967295 = -5.
Proof.
  assert (H : in_range I8 (-5)) by closed_range.
  split; [exact H | ].
  exact (FlagToggle_twice I8 (-5) 4294967295 H).
Defined.

Lemma MurmurHash3_32_is_mix32_uint32 :
  sizeof U32 = 4%nat /\
  (forall h,
     MurmurHash3 Undefined U32 h = Some (conv U32 (mix32 (h mod 2 ^ 32)))) /\
  (forall h1 h2,
     h1 = h2 -> MurmurHash3 Undefined U32 h1 = MurmurHash3 Undefined U32 h2).
Proof.
  split; [reflexivity | ].
  exact (MurmurHash3_32_is_mix32 Undefined U32 eq_refl).
Defined.

Lemma MurmurHash3_32_bijective_int32 :
  sizeof I32 = 4%nat /\
  (forall a b, in_range I32 a -> in_range I32 b ->
     MurmurHash3 Undefined I32 a = MurmurHash3 Undefined I32 b -> a = b) /\
  (forall y, in_range I32 y ->
     exists x, in_range I32 x /\ MurmurHash3 Undefined I32 x = Some y).
Proof.
  split; [reflexivity | ].
  exact (MurmurHash3_32_bijective Undefined I32 eq_refl).
Defined.

Lemma ctz32_spec_at_40 :
  0 <= 40 < 2 ^ 32 /\ ctz32 Undefined 40 = Some (ntz 40).
Proof.
  assert (H : 0 <= 40 < 2 ^ 32) by lia.
  split; [exact H | ].
  exact (proj1 (proj2 (ctz32_spec Undefined 40 H))).
Defined.

(** The pinned value of the 32-bit finaliser on [0x12345678]. *)
Example MurmurHash3_pinned :
  MurmurHash3 Undefined U32 0x12345678 = Some 0xe37cd1bc /\
  MurmurHash3 Wraps U32 0x12345678 = Some 0xe37cd1bc.
Proof. split; reflexivity. Qed.

(** The concrete scenario of the alignment functions. *)
Example Align_scenario :
  Align Undefined U32 57 16 = Some 64 /\
  isAlign Undefined U32 64 16 = Some true /\
  isAlign Undefined U32 57 16 = Some false.
Proof. repeat split. Qed.

(** * Further properties of the header *)

(** Typing of an operator application, comparisons included. *)
Ltac fin' :=
  lazymatch goal with
  | |- ?m = ?R =>
      let m' := eval cbv beta iota zeta delta
        [ret param cast assign add sub mul neg band bor bxor shl shr eqv lnot
         lev ltv lit ulit common promote to_uint_t to_int_t byte_size_uint_t
         byte_size_int_t byte_size_uint_tuple byte_size_int_tuple nth_error
         sizeof is_signed int uint32_t uint64_t size_t ty num Nat.ltb Nat.leb
         shift_ok bits] in m in
      change (m' = R)
  end.

Section MoreProperties.

Variable sovf : signed_overflow.

(** ** Size-matched integer types *)

(** X1.  For a byte count from 1 to 8, [byte_size_uint_t] and
    [byte_size_int_t] give the unsigned and the signed type of the least
    size that holds that many bytes; any other byte count has no type. *)
Theorem byte_size_types_least (n : nat) :
  ((1 <= n <= 8)%nat ->
   exists U S',
     byte_size_uint_t n = Some U /\ byte_size_int_t n = Some S' /\
     is_signed U = false /\ is_signed S' = true /\
     sizeof U = sizeof S' /\ (n <= sizeof U)%nat /\
     forall V, (n <= sizeof V)%nat -> (sizeof U <= sizeof V)%nat) /\
  ((n = 0 \/ 8 < n)%nat ->
   byte_size_uint_t n = None /\ byte_size_int_t n = None).
Proof.
  split.
  - intros Hn.
    assert (H : (n = 1 \/ n = 2 \/ n = 3 \/ n = 4 \/ n = 5 \/ n = 6 \/
                 n = 7 \/ n = 8)%nat) by lia.
    repeat (destruct H as [H | H]); subst n.
    all: cbn; do 2 eexists; repeat split; try reflexivity.
    all: cbn; try lia.
    all: intros V HV; destruct V; cbn in *; lia.
  - intros [-> | Hn]; [split; reflexivity | ].
    do 9 (destruct n as [ | n]; [lia | ]). destruct n; split; reflexivity.
Qed.

(** X2.  [to_uint_t<T>] is unsigned, [to_int_t<T>] is signed, both have the
    size of [T], and converting a value of [T] to either and back gives the
    value again. *)
Theorem to_uint_t_round_trip T x :
  in_range T x ->
  is_signed (to_uint_t T) = false /\ is_signed (to_int_t T) = true /\
  sizeof (to_uint_t T) = sizeof T /\ sizeof (to_int_t T) = sizeof T /\
  num (cast T (cast (to_uint_t T) (V T x))) = x /\
  num (cast T (cast (to_int_t T) (V T x))) = x.
Proof.
  intros Hx. repeat split; try (destruct T; reflexivity).
  all: unfold cast; cbn [num]; destruct T; cbn [to_uint_t to_int_t sizeof
    byte_size_uint_t byte_size_int_t byte_size_uint_tuple byte_size_int_tuple
    nth_error]; range.
Qed.

(** ** Integer logarithms *)

Lemma lev_1 T c : in_range T c -> lev (V T c) (lit 1) = (c <=? 1).
Proof. intros Hc. destruct T; fin'; range. Qed.

Lemma ltv_1 T c : in_range T c -> ltv (V T c) (lit 1) = (c <? 1).
Proof. intros Hc. destruct T; fin'; range. Qed.

Lemma shr_1 T c :
  in_range T c -> shr (V T c) (lit 1) = Some (V (promote T) (Z.shiftr c 1)).
Proof.
  intros Hc. apply (shr_val T c 1 Hc). destruct T; cbn; lia.
Qed.

Lemma conv_promote T v : conv T (conv (promote T) v) = conv T v.
Proof. apply conv_eq_mod. destruct T; range. Qed.

Lemma half_in_range T c :
  in_range T c -> 2 <= c ->
  in_range (promote T) (Z.shiftr c 1) /\
  Z.log2 (Z.shiftr c 1) = Z.log2 c - 1 /\ 1 <= Z.log2 c.
Proof.
  intros Hc H2.
  assert (Hl : 1 <= Z.log2 c) by (apply Z.log2_le_pow2; cbn; lia).
  pose proof (shiftr_le c 1 ltac:(lia) ltac:(lia)) as Hs.
  repeat split; try lia.
  - apply promote_range in Hc. unfold in_range in *. destruct T; unfold_range; zlia.
  - apply promote_range in Hc. unfold in_range in *. lia.
  - rewrite Z.log2_shiftr by lia. lia.
Qed.

Lemma Log2Int_rec_S d T x p :
  Log2Int_rec sovf (S d) T x p =
  (r <- (if lev (param T x) (lit 1)
         then ret (param int p)
         else t <- shr (param T x) (lit 1) ;;
              q <- add sovf (param int p) (lit 1) ;;
              z <- Log2Int_rec sovf d (ty t) (num t) (num q) ;;
              ret (V (ty t) z)) ;;
   ret (num (cast T r))).
Proof. reflexivity. Qed.

Lemma Log2Int_rec_stable d :
  forall T x p,
    Z.log2 (conv T x) < Z.of_nat d ->
    Log2Int_rec sovf (S d) T x p = Log2Int_rec sovf d T x p.
Proof.
  induction d as [ | d IH]; intros T x p Hd.
  - pose proof (Z.log2_nonneg (conv T x)). lia.
  - rewrite (Log2Int_rec_S (S d)), (Log2Int_rec_S d).
    change (param T x) with (V T (conv T x)).
    pose proof (conv_range T x) as Hc. set (c := conv T x) in *.
    rewrite (lev_1 T c Hc).
    destruct (Z.leb_spec c 1) as [Hle | Hgt]; [reflexivity | ].
    rewrite (shr_1 T c Hc). unfold bind at 2 6.
    destruct (add sovf _ _) as [q | ]; [ | reflexivity].
    unfold bind at 2 5. cbn [ty num].
    destruct (half_in_range T c Hc ltac:(lia)) as [Hr [Hl _]].
    rewrite IH; [reflexivity | ].
    rewrite (conv_id _ _ Hr). lia.
Qed.

Lemma Log2Int_rec_enough d T x p :
  Z.log2 (conv T x) < Z.of_nat d ->
  Log2Int_rec sovf d T x p = Log2Int sovf T x p.
Proof.
  intros Hd. unfold Log2Int.
  assert (Hb : Z.log2 (conv T x) < bits T).
  { pose proof (conv_range T x) as Hc.
    destruct (Z.le_gt_cases (conv T x) 0) as [Hn | Hp].
    - rewrite Z.log2_nonpos by assumption. destruct T; cbn; lia.
    - apply Z.log2_lt_pow2; [assumption | ]. destruct T; unfold_range; zlia. }
  assert (Hgen : forall k : nat,
             Log2Int_rec sovf (k + S (Z.to_nat (Z.log2 (conv T x)))) T x p =
             Log2Int_rec sovf (S (Z.to_nat (Z.log2 (conv T x)))) T x p).
  { induction k as [ | k IHk]; [reflexivity | ].
    cbn [Nat.add]. rewrite Log2Int_rec_stable; [exact IHk | ].
    pose proof (Z.log2_nonneg (conv T x)). lia. }
  pose proof (Z.log2_nonneg (conv T x)) as H0.
  replace d with ((d - S (Z.to_nat (Z.log2 (conv T x)))) +
                  S (Z.to_nat (Z.log2 (conv T x))))%nat by lia.
  replace (S (Z.to_nat (bits T)))
    with ((S (Z.to_nat (bits T)) - S (Z.to_nat (Z.log2 (conv T x)))) +
          S (Z.to_nat (Z.log2 (conv T x))))%nat by lia.
  rewrite !Hgen. reflexivity.
Qed.

(** The recursive equation of the source. *)
Lemma Log2Int_eq T x p :
  Log2Int sovf T x p =
  (let x := param T x in
   let p := param int p in
   r <- (if lev x (lit 1)
         then ret p
         else t <- shr x (lit 1) ;;
              q <- add sovf p (lit 1) ;;
              z <- Log2Int sovf (ty t) (num t) (num q) ;;
              ret (V (ty t) z)) ;;
   ret (num (cast T r))).
Proof.
  unfold Log2Int at 1. rewrite Log2Int_rec_S. cbv zeta.
  change (param T x) with (V T (conv T x)).
  pose proof (conv_range T x) as Hc. set (c := conv T x) in *.
  rewrite (lev_1 T c Hc).
  destruct (Z.leb_spec c 1) as [Hle | Hgt]; [reflexivity | ].
  rewrite (shr_1 T c Hc). unfold bind at 2 6.
  destruct (add sovf _ _) as [q | ]; [ | reflexivity].
  unfold bind at 2 5. cbn [ty num].
  destruct (half_in_range T c Hc ltac:(lia)) as [Hr [Hl Hl1]].
  rewrite Log2Int_rec_enough; [reflexivity | ].
  rewrite (conv_id _ _ Hr).
  assert (Z.log2 c < bits T)
    by (apply Z.log2_lt_pow2; [lia | destruct T; unfold_range; zlia]).
  lia.
Qed.


Lemma log2_small c : c <= 1 -> Z.log2 c = 0.
Proof.
  intros Hc. destruct (Z.eq_dec c 1) as [-> | Hne]; [reflexivity | ].
  apply Z.log2_nonpos. lia.
Qed.

Lemma Log2Int_rec_value d :
  forall T x p,
    in_range T x -> Z.log2 x < Z.of_nat d ->
    in_range int p -> p + Z.log2 x <= max_of int ->
    Log2Int_rec sovf d T x p = Some (conv T (p + Z.log2 x)).
Proof.
  induction d as [ | d IH]; intros T x p Hx Hd Hp Hmax.
  - pose proof (Z.log2_nonneg x). lia.
  - rewrite Log2Int_rec_S, (param_id T x Hx), (param_id int p Hp).
    rewrite (lev_1 T x Hx).
    destruct (Z.leb_spec x 1) as [Hle | Hgt].
    + rewrite (log2_small x Hle), Z.add_0_r. reflexivity.
    + destruct (half_in_range T x Hx ltac:(lia)) as [Hr [Hl Hl1]].
      rewrite (shr_1 T x Hx). unfold bind at 2.
      assert (Hq : add sovf (V int p) (lit 1) = Some (V int (p + 1))).
      { unfold add, lit. cbn [ty num]. change (common int int) with int.
        rewrite (conv_id _ _ Hp). change (conv int 1) with 1.
        apply arith_ok. unfold in_range in *. lia. }
      rewrite Hq. unfold bind at 2. cbn [ty num].
      rewrite IH; [ | assumption | lia | unfold in_range in *; lia | lia].
      unfold bind, ret, cast. cbn [num]. rewrite Hl.
      replace (p + 1 + (Z.log2 x - 1)) with (p + Z.log2 x) by lia.
      rewrite conv_promote. reflexivity.
Qed.

Lemma Log2Int_value T x :
  in_range T x -> Log2Int sovf T x 0 = Some (Z.log2 x).
Proof.
  intros Hx.
  assert (Hb : Z.log2 x < bits T).
  { destruct (Z.le_gt_cases x 0) as [Hn | Hp].
    - rewrite Z.log2_nonpos by assumption. destruct T; cbn; lia.
    - apply Z.log2_lt_pow2; [assumption | ]. destruct T; unfold_range; zlia. }
  pose proof (Z.log2_nonneg x) as H0.
  unfold Log2Int. rewrite Log2Int_rec_value; try assumption.
  - f_equal. apply conv_id. destruct T; unfold_range; cbn in Hb; zlia.
  - lia.
  - unfold int; unfold_range; zlia.
  - destruct T; unfold int; unfold_range; cbn in Hb; zlia.
Qed.

(** X3.  [Log2Int(x)] is the floor of the binary logarithm: 0 for every
    [x <= 1] (zero and the negative values included), and for [x >= 1] the
    [r] with [2 ^ r <= x < 2 ^ (r + 1)]. *)
Theorem Log2Int_floor T x :
  in_range T x ->
  exists r, Log2Int sovf T x 0 = Some r /\
            (x <= 1 -> r = 0) /\
            (1 <= x -> 0 <= r /\ 2 ^ r <= x < 2 ^ (r + 1)).
Proof.
  intros Hx. exists (Z.log2 x). split; [apply Log2Int_value, Hx | ]. split.
  - apply log2_small.
  - intros H1. split; [apply Z.log2_nonneg | ].
    rewrite Z.add_1_r. apply Z.log2_spec. lia.
Qed.

(** X4.  With a start count [p], [Log2Int(x, p)] adds the logarithm to it,
    as long as the sum stays an [int]. *)
Theorem Log2Int_accumulates T x p :
  in_range T x -> 0 <= p <= 2 ^ 30 ->
  Log2Int sovf T x p = Some (conv T (p + Z.log2 x)) /\
  (in_range T (p + Z.log2 x) ->
   exists r, Log2Int sovf T x 0 = Some r /\
             Log2Int sovf T x p = Some (p + r)).
Proof.
  intros Hx Hp.
  assert (Hb : Z.log2 x < bits T).
  { destruct (Z.le_gt_cases x 0) as [Hn | Hpos].
    - rewrite Z.log2_nonpos by assumption. destruct T; cbn; lia.
    - apply Z.log2_lt_pow2; [assumption | ]. destruct T; unfold_range; zlia. }
  pose proof (Z.log2_nonneg x) as H0.
  assert (E : Log2Int sovf T x p = Some (conv T (p + Z.log2 x))).
  { unfold Log2Int. apply Log2Int_rec_value; try assumption.
    - lia.
    - unfold int; unfold_range; zlia.
    - destruct T; unfold int; unfold_range; cbn in Hb; zlia. }
  split; [exact E | ].
  intros Hr. exists (Z.log2 x). split; [apply Log2Int_value, Hx | ].
  rewrite E, (conv_id _ _ Hr). reflexivity.
Qed.

Lemma Log2IntRoundUp_value T x :
  in_range T x ->
  Log2IntRoundUp sovf T x = Some (if x <? 1 then 0 else Z.log2 x + 1).
Proof.
  intros Hx. unfold Log2IntRoundUp.
  rewrite (param_id T x Hx), (ltv_1 T x Hx).
  destruct (Z.ltb_spec x 1) as [Hlt | Hge].
  - destruct T; reflexivity.
  - cbn [num]. rewrite (Log2Int_value T x Hx). unfold bind at 2.
    assert (Hb : 0 <= Z.log2 x < bits T).
    { split; [apply Z.log2_nonneg | ].
      apply Z.log2_lt_pow2; [lia | ]. destruct T; unfold_range; zlia. }
    assert (Hb' : Z.log2 x + 1 <= max_of T).
    { destruct (Z.eq_dec (Z.log2 x + 1) (bits T)) as [E | NE].
      - destruct T; unfold_range; cbn in E; zlia.
      - assert (Hlt : Z.log2 x + 1 < bits T) by lia. 
        destruct T; unfold_range; cbn in Hlt; zlia. }
    clear Hge. generalize dependent (Z.log2 x). intros l Hl Hl'.
    destruct T; step; first [ rewrite arith_unsigned by reflexivity
                            | rewrite arith_ok by range ]; next; fin'.
    all: f_equal; range.
Qed.

(** X5.  [Log2IntRoundUp(x)] is the number of bits needed to write [x]: 0
    for [x < 1], and for [x >= 1] the [r] with [2 ^ (r - 1) <= x < 2 ^ r]
    (so a power of two [2 ^ k] gives [k + 1], not [k]). *)
Theorem Log2IntRoundUp_bit_length T x :
  in_range T x ->
  exists r, Log2IntRoundUp sovf T x = Some r /\
            (x < 1 -> r = 0) /\
            (1 <= x -> 1 <= r /\ 2 ^ (r - 1) <= x < 2 ^ r) /\
            (0 <= x -> r = Z.log2_up (x + 1)).
Proof.
  intros Hx. eexists. split; [apply Log2IntRoundUp_value, Hx | ].
  destruct (Z.ltb_spec x 1) as [Hlt | Hge]; repeat split; try lia.
  - intros H0. replace x with 0 by lia. reflexivity.
  - pose proof (Z.log2_nonneg x). lia.
  - replace (Z.log2 x + 1 - 1) with (Z.log2 x) by lia.
    apply Z.log2_spec. lia.
  - rewrite Z.add_1_r. apply Z.log2_spec. lia.
  - intros _. symmetry. apply bit_length_pos. lia.
Qed.

(** X26.  The sixteen compile-time assertions that follow
    [Log2IntRoundUp] in the header hold, whichever way signed overflow is
    read. *)
Example Log2IntRoundUp_static_asserts :
  map (Log2IntRoundUp sovf int)
      [0; 1; 2; 3; 4; 5; 6; 7; 8; 9; 10; 11; 12; 13; 1023; 1024] =
  map Some [0; 1; 2; 2; 3; 3; 3; 3; 4; 4; 4; 4; 4; 4; 10; 11].
Proof. reflexivity. Qed.

(** X6.  For [x >= 1] whose rounded value is representable,
    [RoundToNextPowOfTwo(x)] is 2 to the power [Log2IntRoundUp(x - 1)], and
    [Log2Int] of it is that exponent. *)
Theorem RoundToNextPowOfTwo_Log2IntRoundUp T x :
  1 <= x -> 2 ^ Z.log2_up x <= max_of T ->
  exists r p,
    Log2IntRoundUp sovf T (x - 1) = Some r /\
    RoundToNextPowOfTwo sovf T x = Some p /\
    p = 2 ^ r /\ Log2Int sovf T p 0 = Some r.
Proof.
  intros Hx Hmax.
  pose proof (log2_up_bounds x ltac:(lia)) as [Hlo Hhi].
  pose proof (Z.log2_up_nonneg x) as He.
  assert (HT : in_range T (2 ^ Z.log2_up x))
    by (destruct T; unfold_range; zlia).
  assert (HxT : in_range T (x - 1)) by (destruct T; unfold_range; zlia).
  exists (Z.log2_up x), (2 ^ Z.log2_up x). repeat split.
  - rewrite (Log2IntRoundUp_value T (x - 1) HxT).
    destruct (Z.ltb_spec (x - 1) 1) as [Hlt | Hge].
    + replace x with 1 by lia. reflexivity.
    + rewrite <- bit_length_pos by lia. do 2 f_equal. lia.
  - rewrite RoundToNextPowOfTwo_pos.
    + rewrite (conv_id _ _ HT). reflexivity.
    + lia.
    + right. right. apply promote_range in HT. apply HT.
  - rewrite (Log2Int_value T _ HT), Z.log2_pow2 by assumption. reflexivity.
Qed.

(** ** Divisibility by a power of two *)

Lemma shl_1 T2 x :
  in_range T2 x -> 0 <= x <= 30 ->
  shl (lit 1) (V T2 x) = Some (V int (2 ^ x)).
Proof.
  intros Hx Hr. unfold shl, shift_ok, lit. cbn [ty num].
  change (promote int) with int. change (bits int) with 32.
  replace ((0 <=? x) && (x <? 32)) with true
    by (symmetry; apply andb_true_intro; split;
        [apply Z.leb_le | apply Z.ltb_lt]; lia).
  change (conv int 1) with 1. rewrite Z.shiftl_1_l.
  assert (0 < 2 ^ x) by (apply Z.pow_pos_nonneg; lia).
  assert (2 ^ x <= 2 ^ 30) by (apply Z.pow_le_mono_r; lia).
  rewrite conv_id by (unfold int; unfold_range; zlia). reflexivity.
Qed.

(** X7.  For an exponent [x] from 0 to 30, [isDivBy2PowerX(n, x)] tells
    whether [2 ^ x] divides [n], for [n] of any integral type, negative
    values included. *)
Theorem isDivBy2PowerX_correct T1 T2 n x :
  in_range T1 n -> in_range T2 x -> 0 <= x <= 30 ->
  isDivBy2PowerX sovf T1 T2 n x = Some (n mod 2 ^ x =? 0) /\
  (isDivBy2PowerX sovf T1 T2 n x = Some true <-> (2 ^ x | n)).
Proof.
  intros Hn Hx Hr.
  assert (Hp : 0 < 2 ^ x) by (apply Z.pow_pos_nonneg; lia).
  assert (Hle : 2 ^ x <= 2 ^ 30) by (apply Z.pow_le_mono_r; lia).
  assert (E : isDivBy2PowerX sovf T1 T2 n x = Some (n mod 2 ^ x =? 0)).
  { unfold isDivBy2PowerX.
    rewrite (param_id T1 n Hn), (param_id T2 x Hx), (shl_1 T2 x Hx Hr).
    unfold bind at 1.
    assert (Hs : sub sovf (V int (2 ^ x)) (lit 1) = Some (V int (2 ^ x - 1))).
    { unfold sub, lit. cbn [ty num]. change (common int int) with int.
      rewrite (conv_id int (2 ^ x)) by (unfold int; unfold_range; zlia).
      change (conv int 1) with 1.
      apply arith_ok. unfold int; unfold_range; zlia. }
    rewrite Hs. unfold bind, ret. f_equal.
    pose proof (Z.mod_pos_bound n (2 ^ x) Hp) as Hm.
    assert (Hland : forall C, 32 <= bits C ->
              Z.land (conv C n) (2 ^ x - 1) = n mod 2 ^ x).
    { intros C HC.
      replace (2 ^ x - 1) with (Z.ones x) by (rewrite Z.ones_equiv; lia).
      rewrite Z.land_ones by lia.
      rewrite <- (Z.mod_mod_divide (conv C n) (2 ^ bits C) (2 ^ x)).
      - rewrite conv_mod. apply Z.mod_mod_divide.
        exists (2 ^ (bits C - x)). rewrite <- Z.pow_add_r by lia.
        f_equal. lia.
      - exists (2 ^ (bits C - x)). rewrite <- Z.pow_add_r by lia.
        f_equal. lia. }
    destruct T1; fin'.
    all: rewrite (conv_id _ (2 ^ x - 1)) by (unfold_range; zlia).
    all: rewrite Hland by (cbn; lia); clear Hland Hs.
    all: assert (Hm' : 0 <= n mod 2 ^ x < 2 ^ 30) by lia; clear Hm.
    all: generalize dependent (n mod 2 ^ x); intros m Hm; clear - Hm; range. }
  split; [exact E | ].
  rewrite E. split.
  - intros H. apply Some_inj in H. apply Z.eqb_eq in H.
    apply Z.mod_divide; [lia | exact H].
  - intros H. f_equal. apply Z.eqb_eq. apply Z.mod_divide; [lia | exact H].
Qed.

(** X8.  The mask [(1 << x) - 1] is an [int]: for a negative exponent and for
    an exponent of 32 or more the shift is undefined, whatever the width of
    [n]; divisibility by [2 ^ 32] and above cannot be tested, not even on a
    64-bit [n]. *)
Theorem isDivBy2PowerX_undefined T1 T2 n x :
  in_range T2 x -> x < 0 \/ 32 <= x ->
  isDivBy2PowerX sovf T1 T2 n x = None.
Proof.
  intros Hx Hr. unfold isDivBy2PowerX. rewrite (param_id T2 x Hx).
  unfold shl, shift_ok, lit. cbn [ty num].
  change (promote int) with int. change (bits int) with 32.
  replace ((0 <=? x) && (x <? 32)) with false; [reflexivity | ].
  symmetry. apply andb_false_iff.
  destruct Hr; [left; apply Z.leb_gt | right; apply Z.ltb_ge]; lia.
Qed.

(** ** Alignment, continued *)

Lemma round_up_least (a x m : Z) :
  0 < a -> (a | m) -> x <= m -> a * ((x + a - 1) / a) <= m.
Proof.
  intros Ha [c ->] Hle. rewrite (Z.mul_comm c a).
  apply Z.mul_le_mono_nonneg_l; [lia | ].
  apply Z.lt_succ_r. apply Z.div_lt_upper_bound; [lia | ]. nia.
Qed.

(** X9.  When the least multiple of the alignment that is [>= x] is
    representable in [T], [Align(x, a)] is that multiple: it is a multiple of
    [a], lies in [x .. x + a - 1], and no multiple of [a] lies between [x]
    and it. *)
Theorem Align_least_multiple T x k :
  in_range T x -> 0 <= k <= 30 ->
  in_range T (2 ^ k * ((x + 2 ^ k - 1) / 2 ^ k)) ->
  exists hi,
    Align sovf T x (2 ^ k) = Some hi /\
    (2 ^ k | hi) /\ x <= hi < x + 2 ^ k /\
    forall m, (2 ^ k | m) -> x <= m -> hi <= m.
Proof.
  intros Hx Hk Hr.
  assert (Hp : 0 < 2 ^ k) by (apply Z.pow_pos_nonneg; lia).
  exists (2 ^ k * ((x + 2 ^ k - 1) / 2 ^ k)).
  rewrite (Align_eq sovf T x k Hx Hk), (conv_id _ _ Hr).
  repeat split.
  - apply Z.divide_factor_l.
  - apply round_up_ge, Hp.
  - apply round_up_lt, Hp.
  - intros m Hm Hle. apply round_up_least; assumption.
Qed.

(** X11.  Whatever [x] is, wrapped around or not, the result of [Align]
    passes [isAlign] and is left unchanged by a further [Align]. *)
Theorem Align_results_are_aligned T x k :
  in_range T x -> 0 <= k <= 30 ->
  exists hi,
    Align sovf T x (2 ^ k) = Some hi /\
    in_range T hi /\
    isAlign sovf T hi (2 ^ k) = Some true /\
    Align sovf T hi (2 ^ k) = Some hi.
Proof.
  intros Hx Hk. assert (H0k : 0 <= k) by lia.
  exists (conv T (2 ^ k * ((x + 2 ^ k - 1) / 2 ^ k))).
  rewrite (Align_eq sovf T x k Hx Hk).
  pose proof (conv_multiple T k ((x + 2 ^ k - 1) / 2 ^ k) H0k) as Hhi.
  pose proof (conv_range T (2 ^ k * ((x + 2 ^ k - 1) / 2 ^ k))) as Rhi.
  repeat split; try apply Rhi.
  - rewrite isAlign_eq by assumption. rewrite Hhi. reflexivity.
  - apply aligned_fixpoint; assumption.
Qed.

(** X13.  At the top of an unsigned type, where the least multiple of the
    alignment above [x] would be [2 ^ bits], [Align] wraps around to 0. *)
Theorem Align_wraps_to_zero T x k :
  is_signed T = false -> in_range T x -> 0 <= k <= 30 -> k <= bits T ->
  max_of T + 1 - 2 ^ k < x ->
  Align sovf T x (2 ^ k) = Some 0.
Proof.
  intros HT Hx Hk Hkb Hlt.
  assert (Hp : 0 < 2 ^ k) by (apply Z.pow_pos_nonneg; lia).
  assert (Hm : max_of T + 1 = 2 ^ bits T)
    by (destruct T; try discriminate HT; unfold max_of; cbn; lia).
  assert (Hdiv : 2 ^ bits T = 2 ^ k * 2 ^ (bits T - k))
    by (rewrite <- Z.pow_add_r by lia; f_equal; lia).
  rewrite (Align_eq sovf T x k Hx Hk).
  assert (E : (x + 2 ^ k - 1) / 2 ^ k = 2 ^ (bits T - k)).
  { symmetry. apply Z.div_unique with (x + 2 ^ k - 1 - 2 ^ bits T).
    - left. unfold in_range in Hx. lia.
    - rewrite <- Hdiv. lia. }
  rewrite E, <- Hdiv, <- Hm. rewrite conv_max_succ.
  unfold min_of. rewrite HT. reflexivity.
Qed.

(** X14.  Alignment to 1 changes nothing and every value is aligned to 1;
    0 is aligned to every power of two and [Align] keeps it. *)
Theorem Align_edge_cases T x k :
  in_range T x -> 0 <= k <= 30 ->
  (Align sovf T x 1 = Some x /\ isAlign sovf T x 1 = Some true) /\
  (Align sovf T 0 (2 ^ k) = Some 0 /\ isAlign sovf T 0 (2 ^ k) = Some true).
Proof.
  intros Hx Hk.
  assert (H0 : in_range T 0) by (destruct T; unfold_range; zlia).
  split.
  - change 1 with (2 ^ 0).
    rewrite (aligned_fixpoint sovf T x 0 Hx ltac:(lia) (Z.mod_1_r x)).
    rewrite isAlign_eq by (assumption || lia).
    rewrite Z.mod_1_r. repeat split.
  - rewrite (aligned_fixpoint sovf T 0 k H0 Hk (Zmod_0_l _)).
    rewrite isAlign_eq by assumption.
    rewrite Zmod_0_l. repeat split.
Qed.

(** ** Powers of two, continued *)

(** X15.  Except at the least value of [std::int32_t] and [std::int64_t],
    where [x - 1] overflows, [isPowTwo(x)] is true exactly when [x] is 0 or
    a power of two; in particular it is false on the negative values. *)
Theorem isPowTwo_characterised T x :
  in_range T x -> x <> min_of T \/ bits T < 32 \/ is_signed T = false ->
  (exists b, isPowTwo sovf T x = Some b) /\
  (isPowTwo sovf T x = Some true <-> x = 0 \/ is_pow2 x) /\
  (x < 0 -> isPowTwo sovf T x = Some false).
Proof.
  intros Hx Hmin.
  destruct (Z.eq_dec x 0) as [-> | Hnz].
  - assert (E : isPowTwo sovf T 0 = Some true) by (destruct T, sovf; reflexivity).
    rewrite E. repeat split; eauto. lia.
  - assert (Hmin' : x <> min_of T \/ bits T < 32).
    { destruct Hmin as [H | [H | H]]; [tauto | tauto | ].
      left. unfold min_of. rewrite H. assumption. }
    rewrite (isPowTwo_nonzero sovf T x Hx Hnz Hmin'). repeat split; eauto.
    + intros H. apply Some_inj in H. right. apply isPowTwo_doc_spec, H.
    + intros [H | H]; [contradiction | ]. f_equal.
      apply isPowTwo_doc_spec, H.
    + intros Hneg. f_equal. unfold isPowTwo_doc.
      replace (0 <? x) with false by (symmetry; apply Z.ltb_ge; lia).
      reflexivity.
Qed.

(** ** Rounding up to a power of two, continued *)

(** X16.  On an unsigned type, an [x] above the greatest representable
    power of two is rounded to 0. *)
Theorem RoundToNextPowOfTwo_overflows_to_zero T x :
  is_signed T = false -> 2 ^ (bits T - 1) < x <= max_of T ->
  RoundToNextPowOfTwo sovf T x = Some 0.
Proof.
  intros HT Hx.
  assert (Hm : max_of T + 1 = 2 ^ bits T)
    by (destruct T; try discriminate HT; unfold max_of; cbn; lia).
  assert (Hb : 0 < bits T) by (destruct T; cbn; lia).
  assert (Hx0 : 0 < x).
  { pose proof (Z.pow_pos_nonneg 2 (bits T - 1) ltac:(lia) ltac:(lia)). lia. }
  rewrite RoundToNextPowOfTwo_pos by (tauto || lia).
  assert (E : Z.log2_up x = bits T).
  { apply Z.le_antisymm.
    - apply Z.log2_up_le_pow2; lia.
    - apply Z.lt_pred_le. apply Z.log2_up_lt_pow2; [lia | ].
      replace (Z.pred (bits T)) with (bits T - 1) by lia. lia. }
  rewrite E, <- Hm, conv_max_succ. unfold min_of. rewrite HT. reflexivity.
Qed.

(** X17.  When the rounded value is representable it is less than twice
    [x], and rounding is monotone. *)
Theorem RoundToNextPowOfTwo_below_double T x y :
  0 < x <= y -> 2 ^ Z.log2_up y <= max_of T ->
  exists rx ry,
    RoundToNextPowOfTwo sovf T x = Some rx /\
    RoundToNextPowOfTwo sovf T y = Some ry /\
    x <= rx < 2 * x /\ rx <= ry.
Proof.
  intros Hxy Hmax.
  assert (Hmono : 2 ^ Z.log2_up x <= 2 ^ Z.log2_up y).
  { apply Z.pow_le_mono_r; [lia | ]. apply Z.log2_up_le_mono. lia. }
  assert (Hval : forall z, 0 < z -> 2 ^ Z.log2_up z <= max_of T ->
            RoundToNextPowOfTwo sovf T z = Some (2 ^ Z.log2_up z)).
  { intros z Hz Hle. pose proof (log2_up_bounds z Hz) as [Hlo _].
    assert (HT : in_range T (2 ^ Z.log2_up z))
      by (destruct T; unfold_range; zlia).
    rewrite RoundToNextPowOfTwo_pos.
    - rewrite (conv_id _ _ HT). reflexivity.
    - lia.
    - right. right. apply promote_range in HT. apply HT. }
  exists (2 ^ Z.log2_up x), (2 ^ Z.log2_up y).
  rewrite !Hval by lia.
  pose proof (log2_up_bounds x ltac:(lia)). repeat split; lia.
Qed.

(** X18.  On an unsigned type the result of [RoundToNextPowOfTwo] always
    passes [isPowTwo], the 0 returned for 0 and on overflow included. *)
Theorem isPowTwo_RoundToNextPowOfTwo T x :
  is_signed T = false -> in_range T x ->
  exists r, RoundToNextPowOfTwo sovf T x = Some r /\
            isPowTwo sovf T r = Some true.
Proof.
  intros HT Hx.
  assert (Hz : isPowTwo sovf T 0 = Some true) by (destruct T, sovf; reflexivity).
  assert (Hmin : min_of T = 0) by (unfold min_of; rewrite HT; reflexivity).
  destruct (Z.eq_dec x 0) as [-> | Hnz].
  - exists 0. split; [apply RoundToNextPowOfTwo_zero | exact Hz].
  - assert (Hpos : 0 < x) by (unfold in_range in Hx; lia).
    exists (conv T (2 ^ Z.log2_up x)). split.
    + apply RoundToNextPowOfTwo_pos; [unfold in_range in Hx; lia | tauto].
    + pose proof (conv_range T (2 ^ Z.log2_up x)) as Hr.
      destruct (Z.le_gt_cases (2 ^ Z.log2_up x) (max_of T)) as [Hle | Hgt].
      * pose proof (log2_up_bounds x Hpos) as [Hlo _].
        assert (HT2 : in_range T (2 ^ Z.log2_up x))
          by (unfold in_range; lia).
        rewrite (conv_id _ _ HT2).
        rewrite isPowTwo_nonzero; [ | assumption | lia | left; lia].
        f_equal. apply isPowTwo_doc_spec.
        exists (Z.log2_up x). split; [apply Z.log2_up_nonneg | reflexivity].
      * assert (E : conv T (2 ^ Z.log2_up x) = 0).
        { assert (Hm : max_of T + 1 = 2 ^ bits T)
            by (destruct T; try discriminate HT; unfold max_of; cbn; lia).
          pose proof (log2_up_bounds x Hpos) as [_ Hhi].
          assert (Hb : 0 <= bits T) by (destruct T; cbn; lia).
          assert (El : Z.log2_up x = bits T).
          { pose proof (Z.log2_up_nonneg x).
            unfold in_range in Hx. apply Z.le_antisymm.
            - apply Z.lt_succ_r. apply (Z.pow_lt_mono_r_iff 2); [lia | lia | ].
              rewrite Z.pow_succ_r by lia. lia.
            - apply (Z.pow_le_mono_r_iff 2); lia. }
          rewrite El, <- Hm, conv_max_succ. exact Hmin. }
        rewrite E. exact Hz.
Qed.

(** ** The 64-bit finaliser *)

Lemma high_bits_zero w h i :
  0 <= h < 2 ^ w -> w <= i -> Z.testbit h i = false.
Proof.
  intros Hh Hi. destruct (Z.eq_dec h 0) as [-> | Hnz]; [apply Z.bits_0 | ].
  assert (0 <= w).
  { destruct (Z.le_gt_cases 0 w); [assumption | ].
    rewrite Z.pow_neg_r in Hh by lia. lia. }
  apply Z.bits_above_log2; [lia | ].
  apply Z.lt_le_trans with w; [apply Z.log2_lt_pow2; lia | assumption].
Qed.

Lemma xorshift_involutive w n h :
  0 <= h < 2 ^ w -> 0 <= n -> w <= 2 * n ->
  Z.lxor (Z.lxor h (Z.shiftr h n)) (Z.shiftr (Z.lxor h (Z.shiftr h n)) n) = h.
Proof.
  intros Hh Hn Hw. apply Z.bits_inj'. intros i Hi.
  rewrite !Z.lxor_spec, !Z.shiftr_spec, !Z.lxor_spec, !Z.shiftr_spec by lia.
  rewrite (high_bits_zero w h (i + n + n)) by (assumption || lia).
  destruct (Z.testbit h i), (Z.testbit h (i + n)); reflexivity.
Qed.

Lemma u64_mod z : u64 (z mod 2 ^ 64).
Proof. unfold u64. zlia. Qed.

Lemma u64_shiftr z n : u64 z -> 0 <= n -> u64 (Z.shiftr z n).
Proof.
  unfold u64. intros Hz Hn. pose proof (shiftr_le z n ltac:(lia) Hn). lia.
Qed.

Lemma u64_lxor a b : u64 a -> u64 b -> u64 (Z.lxor a b).
Proof.
  unfold u64. intros Ha Hb.
  assert (H0 : 0 <= Z.lxor a b) by (apply Z.lxor_nonneg; lia).
  split; [assumption | ].
  destruct (Z.eq_dec (Z.lxor a b) 0) as [E | NE]; [rewrite E; reflexivity | ].
  apply Z.log2_lt_pow2; [lia | ].
  destruct (Z.lt_ge_cases (Z.log2 (Z.lxor a b)) 64) as [L | L]; [exact L | ].
  pose proof (Z.bit_log2 (Z.lxor a b) ltac:(lia)) as Hb1.
  rewrite Z.lxor_spec in Hb1.
  rewrite (high_bits_zero 64 a), (high_bits_zero 64 b) in Hb1
    by (assumption || lia).
  discriminate.
Qed.

Lemma conv_u64 z : u64 z -> conv U64 z = z.
Proof. unfold u64. intros. apply conv_id. range. Qed.

Lemma u64_conv z : u64 (conv U64 z).
Proof. apply u64_mod. Qed.

Create HintDb u64 discriminated.
#[local] Hint Resolve u64_mod u64_conv u64_shiftr u64_lxor : u64.
#[local] Hint Extern 1 (0 <= _) => lia : u64.

Ltac eval_tests' :=
  repeat match goal with
  | |- context [if ?b then _ else _] =>
      let v := eval vm_compute in b in
      lazymatch v with
      | true => change b with true
      | false => change b with false
      end; cbv iota
  end.

Lemma murmurHash3_by_size_8_Compute_eq h :
  murmurHash3_by_size_8_Compute sovf h = Some (mix64 (h mod 2 ^ 64)).
Proof.
  unfold murmurHash3_by_size_8_Compute.
  change (param uint64_t h) with (V U64 (h mod 2 ^ 64)).
  generalize (u64_mod h). generalize (h mod 2 ^ 64). clear h. intros h Hh.
  step; eval_tests'; next.
  step; rewrite arith_unsigned by reflexivity; next.
  step; eval_tests'; next.
  step; rewrite arith_unsigned by reflexivity; next.
  step; eval_tests'; next.
  fin. f_equal. cbn [bits].
  change (conv U64 18397679294719823053) with 18397679294719823053.
  change (conv U64 14181476777654086739) with 14181476777654086739.
  unfold mix64, mix64_steps, fold_left, run_step64.
  rewrite ?conv_u64 by auto 10 with u64. reflexivity.
Qed.

Lemma MurmurHash3_64_eq T h :
  sizeof T = 8%nat ->
  MurmurHash3 sovf T h = Some (conv T (mix64 (h mod 2 ^ 64))).
Proof.
  intros HT. unfold MurmurHash3. rewrite HT. cbn [murmurHash3_by_size].
  rewrite murmurHash3_by_size_8_Compute_eq. unfold bind, ret, cast. cbn [num].
  do 3 f_equal. destruct T; try discriminate HT; fin; range.
Qed.

Lemma xorshift33_involutive h :
  u64 h ->
  Z.lxor (Z.lxor h (Z.shiftr h 33)) (Z.shiftr (Z.lxor h (Z.shiftr h 33)) 33) = h.
Proof. intros Hh. apply (xorshift_involutive 64); (exact Hh || lia). Qed.

Lemma mul_undo64 c c' h :
  u64 h -> (c * c') mod 2 ^ 64 = 1 ->
  ((h * c) mod 2 ^ 64 * c') mod 2 ^ 64 = h.
Proof.
  intros Hh Hc.
  rewrite Z.mul_mod_idemp_l, <- Z.mul_assoc, <- Z.mul_mod_idemp_r by lia.
  rewrite Hc, Z.mul_1_r. apply Z.mod_small, Hh.
Qed.

Lemma u64_mix64 h : u64 h -> u64 (mix64 h).
Proof.
  intros Hh. unfold mix64, mix64_steps, fold_left, run_step64.
  auto 10 with u64.
Qed.

Lemma u64_unmix64 h : u64 h -> u64 (unmix64 h).
Proof.
  intros Hh. unfold unmix64, unmix64_steps, fold_left, run_step64.
  auto 10 with u64.
Qed.

Lemma unmix64_mix64 h : u64 h -> unmix64 (mix64 h) = h.
Proof.
  intros Hh. unfold unmix64, unmix64_steps, mix64, mix64_steps, fold_left.
  unfold run_step64.
  rewrite xorshift33_involutive by auto 10 with u64.
  rewrite mul_undo64 by (auto 10 with u64 || reflexivity).
  rewrite xorshift33_involutive by auto 10 with u64.
  rewrite mul_undo64 by (auto 10 with u64 || reflexivity).
  apply xorshift33_involutive, Hh.
Qed.

Lemma mix64_unmix64 h : u64 h -> mix64 (unmix64 h) = h.
Proof.
  intros Hh. unfold unmix64, unmix64_steps, mix64, mix64_steps, fold_left.
  unfold run_step64.
  rewrite xorshift33_involutive by auto 10 with u64.
  rewrite mul_undo64 by (auto 10 with u64 || reflexivity).
  rewrite xorshift33_involutive by auto 10 with u64.
  rewrite mul_undo64 by (auto 10 with u64 || reflexivity).
  apply xorshift33_involutive, Hh.
Qed.

Lemma MurmurHash3_64_inj T a b :
  sizeof T = 8%nat -> in_range T a -> in_range T b ->
  MurmurHash3 sovf T a = MurmurHash3 sovf T b -> a = b.
Proof.
  intros HT Ha Hb' H.
  assert (Hb : bits T = 64) by (destruct T; try discriminate HT; reflexivity).
  rewrite !MurmurHash3_64_eq in H by assumption.
  apply Some_inj, conv_inj_mod in H. rewrite Hb in H.
  rewrite (Z.mod_small (mix64 (a mod _))) in H by (apply u64_mix64, u64_mod).
  rewrite (Z.mod_small (mix64 (b mod _))) in H by (apply u64_mix64, u64_mod).
  apply (f_equal unmix64) in H.
  rewrite !unmix64_mix64 in H by apply u64_mod.
  apply (in_range_mod_inj T); rewrite ?Hb; assumption.
Qed.

(** X19.  On a 64-bit type [MurmurHash3] is the five steps
    [h ^= h >> 33; h *= 0xff51afd7ed558ccd; h ^= h >> 33;
    h *= 0xc4ceb9fe1a85ec53; h ^= h >> 33] on residues modulo [2 ^ 64], and
    it is a bijection: two values with the same hash are equal and every
    value is a hash. *)
Theorem MurmurHash3_64_bijective T :
  sizeof T = 8%nat ->
  (forall h, MurmurHash3 sovf T h = Some (conv T (mix64 (h mod 2 ^ 64)))) /\
  (forall a b, in_range T a -> in_range T b ->
     MurmurHash3 sovf T a = MurmurHash3 sovf T b -> a = b) /\
  (forall y, in_range T y ->
     exists x, in_range T x /\ MurmurHash3 sovf T x = Some y).
Proof.
  intros HT.
  assert (Hb : bits T = 64) by (destruct T; try discriminate HT; reflexivity).
  split; [intros h; apply MurmurHash3_64_eq, HT | ]. split.
  - intros a b Ha Hb' H. apply (MurmurHash3_64_inj T); assumption.
  - intros y Hy. exists (conv T (unmix64 (y mod 2 ^ 64))). split.
    + apply conv_range.
    + rewrite MurmurHash3_64_eq by assumption. f_equal.
      assert (E : conv T (unmix64 (y mod 2 ^ 64)) mod 2 ^ 64 =
                  unmix64 (y mod 2 ^ 64)).
      { pose proof (conv_mod T (unmix64 (y mod 2 ^ 64))) as E.
        rewrite Hb in E. rewrite E.
        apply Z.mod_small, u64_unmix64, u64_mod. }
      rewrite E, mix64_unmix64 by apply u64_mod.
      rewrite <- (conv_id T y Hy) at 2. apply conv_eq_mod.
      rewrite Hb. apply Z.mod_mod. lia.
Qed.

(** X20.  On the 32-bit and on the 64-bit types 0 is hashed to 0, and it is
    the only value that is. *)
Theorem MurmurHash3_zero_iff T h :
  (sizeof T = 4 \/ sizeof T = 8)%nat -> in_range T h ->
  (MurmurHash3 sovf T h = Some 0 <-> h = 0).
Proof.
  intros HT Hh.
  assert (H0 : in_range T 0) by (destruct T; unfold_range; zlia).
  assert (Hz : MurmurHash3 sovf T 0 = Some 0).
  { destruct HT as [HT | HT]; destruct T; try discriminate HT; reflexivity. }
  split; [ | intros ->; exact Hz].
  intros H. rewrite <- Hz in H. destruct HT as [HT | HT].
  - assert (Hb : bits T = 32) by (destruct T; try discriminate HT; reflexivity).
    rewrite !MurmurHash3_32_eq in H by assumption.
    apply Some_inj, conv_inj_mod in H. rewrite Hb in H.
    rewrite (Z.mod_small (mix32 (h mod _))) in H by (apply u32_mix32, u32_mod).
    rewrite (Z.mod_small (mix32 (0 mod _))) in H by (apply u32_mix32, u32_mod).
    apply (f_equal unmix32) in H.
    rewrite !unmix32_mix32 in H by apply u32_mod.
    apply (in_range_mod_inj T); rewrite ?Hb; assumption.
  - apply (MurmurHash3_64_inj T); assumption.
Qed.

(** ** Leading zeros *)

Create HintDb w32 discriminated.
#[local] Hint Resolve u32_mod u32_conv u32_shiftr u32_lxor u32_lor u32_land
  : w32.
#[local] Hint Extern 1 (0 <= _) => lia : w32.

Lemma bind_ext {A B : Type} (m : option A) (k1 k2 : A -> option B) :
  (forall a, k1 a = k2 a) -> bind m k1 = bind m k2.
Proof. intros H. destruct m; [apply H | reflexivity]. Qed.

(** One step of the downward fill: if the [d] bits from the highest set bit
    down are set, then after [z |= z >> d] the [2 d] bits are. *)
Lemma fill_step d z :
  0 < z -> 0 <= d ->
  (forall i, 0 <= i -> Z.log2 z - d < i <= Z.log2 z -> Z.testbit z i = true) ->
  Z.log2 (Z.lor z (Z.shiftr z d)) = Z.log2 z /\
  forall i, 0 <= i -> Z.log2 z - 2 * d < i <= Z.log2 z ->
            Z.testbit (Z.lor z (Z.shiftr z d)) i = true.
Proof.
  intros Hz Hd Htop. split; [apply log2_lor_shiftr; lia | ].
  intros i Hi Hr. rewrite Z.lor_spec, Z.shiftr_spec by lia.
  destruct (Z.lt_ge_cases (Z.log2 z - d) i) as [L | L].
  - rewrite Htop by lia. reflexivity.
  - rewrite (Htop (i + d)) by lia. apply orb_true_r.
Qed.

Lemma fill_all d z :
  0 < z -> Z.log2 z < d ->
  (forall i, 0 <= i -> Z.log2 z - d < i <= Z.log2 z -> Z.testbit z i = true) ->
  z = 2 ^ (Z.log2 z + 1) - 1.
Proof.
  intros Hz Hd Htop. pose proof (Z.log2_nonneg z) as Hl.
  replace (2 ^ (Z.log2 z + 1) - 1) with (Z.ones (Z.log2 z + 1))
    by (rewrite Z.ones_equiv; lia).
  apply Z.bits_inj'. intros i Hi.
  destruct (Z.le_gt_cases i (Z.log2 z)) as [L | L].
  - rewrite Z.ones_spec_low by lia. apply Htop; lia.
  - rewrite Z.ones_spec_high by lia. apply Z.bits_above_log2; lia.
Qed.

Lemma lor_shiftr_pos z d : 0 < z -> 0 <= d -> 0 < Z.lor z (Z.shiftr z d).
Proof.
  intros Hz Hd.
  assert (0 <= Z.shiftr z d) by (apply Z.shiftr_nonneg; lia).
  assert (0 <= Z.lor z (Z.shiftr z d)) by (apply Z.lor_nonneg; lia).
  assert (Z.lor z (Z.shiftr z d) <> 0); [ | lia].
  intros E. apply Z.lor_eq_0_iff in E. lia.
Qed.

(** The five fills of [clz32]. *)
Lemma fill32 x :
  0 < x < 2 ^ 32 ->
  let x1 := Z.lor x (Z.shiftr x 1) in
  let x2 := Z.lor x1 (Z.shiftr x1 2) in
  let x3 := Z.lor x2 (Z.shiftr x2 4) in
  let x4 := Z.lor x3 (Z.shiftr x3 8) in
  let x5 := Z.lor x4 (Z.shiftr x4 16) in
  x5 = 2 ^ (Z.log2 x + 1) - 1.
Proof.
  intros Hx x1 x2 x3 x4 x5.
  assert (Hl : Z.log2 x < 32) by (apply Z.log2_lt_pow2; lia).
  assert (H0 : forall i, 0 <= i -> Z.log2 x - 1 < i <= Z.log2 x ->
                         Z.testbit x i = true).
  { intros i Hi Hr. replace i with (Z.log2 x) by lia. apply Z.bit_log2. lia. }
  destruct (fill_step 1 x ltac:(lia) ltac:(lia) H0) as [L1 H1].
  fold x1 in L1, H1. rewrite <- L1 in H1.
  assert (P1 : 0 < x1) by (apply lor_shiftr_pos; lia).
  destruct (fill_step 2 x1 P1 ltac:(lia) H1) as [L2 H2].
  fold x2 in L2, H2. rewrite <- L2 in H2.
  assert (P2 : 0 < x2) by (apply lor_shiftr_pos; lia).
  destruct (fill_step 4 x2 P2 ltac:(lia) H2) as [L3 H3].
  fold x3 in L3, H3. rewrite <- L3 in H3.
  assert (P3 : 0 < x3) by (apply lor_shiftr_pos; lia).
  destruct (fill_step 8 x3 P3 ltac:(lia) H3) as [L4 H4].
  fold x4 in L4, H4. rewrite <- L4 in H4.
  assert (P4 : 0 < x4) by (apply lor_shiftr_pos; lia).
  destruct (fill_step 16 x4 P4 ltac:(lia) H4) as [L5 H5].
  fold x5 in L5, H5. rewrite <- L5 in H5.
  assert (P5 : 0 < x5) by (apply lor_shiftr_pos; lia).
  assert (E : Z.log2 x5 = Z.log2 x) by lia.
  rewrite <- E. apply (fill_all (2 * 16)); [assumption | lia | exact H5].
Qed.

Lemma clz32_unfold x :
  u32 x ->
  clz32 sovf x =
  (let x1 := Z.lor x (Z.shiftr x 1) in
   let x2 := Z.lor x1 (Z.shiftr x1 2) in
   let x3 := Z.lor x2 (Z.shiftr x2 4) in
   let x4 := Z.lor x3 (Z.shiftr x3 8) in
   let x5 := Z.lor x4 (Z.shiftr x4 16) in
   p <- popcnt32 sovf x5 ;;
   ret ((32 - p mod 2 ^ 32) mod 2 ^ 32)).
Proof.
  intros Hx. unfold clz32. cbv zeta.
  change (param uint32_t x) with (V U32 (conv U32 x)).
  rewrite (conv_u32 x Hx).
  step; eval_tests'; next.
  step; eval_tests'; next.
  step; eval_tests'; next.
  step; eval_tests'; next.
  step; eval_tests'; next.
  cbv beta iota zeta delta [assign cast bor common promote sizeof is_signed
    int Nat.ltb Nat.leb ty num].
  rewrite ?conv_u32 by auto 20 with w32.
  apply bind_ext. intros p.
  step. rewrite arith_unsigned by reflexivity. next. fin.
  cbn [bits]. unfold ret. f_equal. range.
Qed.

Lemma clz32_value x :
  0 <= x < 2 ^ 32 ->
  clz32 sovf x = Some (if x =? 0 then 32 else 31 - Z.log2 x).
Proof.
  intros Hx. destruct (Z.eqb_spec x 0) as [-> | Hnz]; [reflexivity | ].
  rewrite clz32_unfold by exact Hx. cbv zeta.
  rewrite (fill32 x) by lia.
  assert (Hl : 0 <= Z.log2 x < 32)
    by (split; [apply Z.log2_nonneg | apply Z.log2_lt_pow2; lia]).
  rewrite popcnt32_ones by lia. unfold bind, ret. f_equal. zlia.
Qed.

(** X21.  [clz32(x)] is 32 for [x = 0] and otherwise the number [c] of zero
    bits above the highest set bit: [2 ^ (31 - c) <= x < 2 ^ (32 - c)]. *)
Theorem clz32_correct x :
  0 <= x < 2 ^ 32 ->
  exists c, clz32 sovf x = Some c /\
            (x = 0 -> c = 32) /\
            (x <> 0 -> 0 <= c <= 31 /\ 2 ^ (31 - c) <= x < 2 ^ (32 - c)).
Proof.
  intros Hx. eexists. split; [apply clz32_value, Hx | ].
  destruct (Z.eqb_spec x 0) as [-> | Hnz].
  - split; [reflexivity | intros H; contradiction].
  - split; [intros H; contradiction | intros _].
    assert (Hl : 0 <= Z.log2 x < 32)
      by (split; [apply Z.log2_nonneg | apply Z.log2_lt_pow2; lia]).
    split; [lia | ].
    replace (31 - (31 - Z.log2 x)) with (Z.log2 x) by lia.
    replace (32 - (31 - Z.log2 x)) with (Z.succ (Z.log2 x)) by lia.
    apply Z.log2_spec. lia.
Qed.

(** ** Population count *)

Lemma all_from_spec k f :
  forall base, all_from k f base = true ->
  forall v, base <= v < base + 2 ^ Z.of_nat k -> f v = true.
Proof.
  induction k as [ | k IH]; intros base H v Hv.
  - cbn in *. replace v with base by lia. exact H.
  - cbn [all_from] in H. apply andb_true_iff in H. destruct H as [H1 H2].
    rewrite Nat2Z.inj_succ, Z.pow_succ_r in Hv by lia.
    destruct (Z.lt_ge_cases v (base + 2 ^ Z.of_nat k)) as [L | L].
    + apply (IH base H1). lia.
    + apply (IH _ H2). lia.
Qed.

Lemma pc16_ok_all v : 0 <= v < 65536 -> pc16_ok v = true.
Proof.
  intros Hv. apply (all_from_spec 16 pc16_ok 0); [ | exact Hv].
  vm_compute. reflexivity.
Qed.

Lemma popcount_bit y (b : bool) :
  0 <= y -> popcount (2 * y + Z.b2z b) = popcount y + Z.b2z b.
Proof.
  intros Hy. destruct y as [ | p | p]; [destruct b; reflexivity | | lia].
  destruct b; cbn [Z.b2z].
  - change (2 * Z.pos p + 1) with (Z.pos p~1). cbn [popcount pos_popcount]. lia.
  - rewrite Z.add_0_r. change (2 * Z.pos p) with (Z.pos p~0).
    cbn [popcount pos_popcount]. lia.
Qed.

Lemma popcount_concat (k : nat) :
  forall H L, 0 <= H -> 0 <= L < 2 ^ Z.of_nat k ->
  popcount (H * 2 ^ Z.of_nat k + L) = popcount H + popcount L.
Proof.
  induction k as [ | k IH]; intros H L HH HL.
  - cbn in HL. replace L with 0 by lia. cbn [Z.of_nat]. 
    rewrite Z.pow_0_r, Z.mul_1_r, Z.add_0_r. cbn. lia.
  - rewrite Nat2Z.inj_succ, Z.pow_succ_r in * by lia.
    pose proof (Z.div_mod L 2 ltac:(lia)) as HdL.
    pose proof (Z.mod_pos_bound L 2 ltac:(lia)) as HmL.
    assert (Hb : L mod 2 = Z.b2z (Z.odd L)) by (rewrite Zmod_odd; destruct (Z.odd L); reflexivity).
    replace (H * (2 * 2 ^ Z.of_nat k) + L)
      with (2 * (H * 2 ^ Z.of_nat k + L / 2) + Z.b2z (Z.odd L)) by lia.
    assert (0 < 2 ^ Z.of_nat k) by (apply Z.pow_pos_nonneg; lia).
    rewrite popcount_bit by nia.
    rewrite IH by lia.
    replace (popcount L) with (popcount (2 * (L / 2) + Z.b2z (Z.odd L)))
      by (f_equal; lia).
    rewrite popcount_bit by lia. lia.
Qed.

Lemma testbit_concat w A B i :
  0 <= w -> 0 <= B < 2 ^ w -> 0 <= i ->
  Z.testbit (A * 2 ^ w + B) i =
  if i <? w then Z.testbit B i else Z.testbit A (i - w).
Proof.
  intros Hw HB Hi. assert (0 < 2 ^ w) by (apply Z.pow_pos_nonneg; lia).
  destruct (Z.ltb_spec i w) as [L | L].
  - rewrite <- (Z.mod_pow2_bits_low (A * 2 ^ w + B) w i) by lia.
    rewrite Z.add_comm, Z_mod_plus_full, Z.mod_small by lia. reflexivity.
  - replace i with (i - w + w) at 1 by lia.
    rewrite <- Z.div_pow2_bits by lia.
    rewrite Z.add_comm, Z_div_plus_full, Z.div_small by lia. reflexivity.
Qed.

Lemma land_small w B D : 0 <= w -> 0 <= B < 2 ^ w -> 0 <= D -> 0 <= Z.land B D < 2 ^ w.
Proof.
  intros Hw HB HD.
  assert (H0 : 0 <= Z.land B D) by (apply Z.land_nonneg; lia).
  split; [exact H0 | ].
  destruct (Z.eq_dec (Z.land B D) 0) as [E | NE].
  - rewrite E. apply Z.pow_pos_nonneg; lia.
  - apply Z.log2_lt_pow2; [lia | ].
    assert (B <> 0) by (intros ->; rewrite Z.land_0_l in NE; lia).
    apply Z.le_lt_trans with (Z.log2 B).
    + pose proof (Z.log2_land B D ltac:(lia) HD). lia.
    + apply Z.log2_lt_pow2; lia.
Qed.

(** A bitwise AND acts separately on the two halves of its operands. *)
Lemma land_split w A B C D :
  0 <= w -> 0 <= B < 2 ^ w -> 0 <= D < 2 ^ w ->
  Z.land (A * 2 ^ w + B) (C * 2 ^ w + D) = Z.land A C * 2 ^ w + Z.land B D.
Proof.
  intros Hw HB HD. apply Z.bits_inj'. intros i Hi.
  rewrite Z.land_spec, !testbit_concat
    by (try lia; apply land_small; lia).
  destruct (i <? w); apply eq_sym, Z.land_spec.
Qed.

Lemma land_low m P N : 0 <= m -> 0 <= N < 2 ^ m -> Z.land P N = Z.land (P mod 2 ^ m) N.
Proof.
  intros Hm HN.
  rewrite (Z.land_comm P), (Z.land_comm (P mod 2 ^ m)).
  rewrite <- (Z.mod_small N (2 ^ m)) by lia. apply land_mod_r. exact Hm.
Qed.

Lemma land_split16 A B C D :
  0 <= B < 65536 -> 0 <= D < 65536 ->
  Z.land (A * 65536 + B) (C * 65536 + D) = Z.land A C * 65536 + Z.land B D.
Proof. intros HB HD. apply (land_split 16); lia. Qed.

Lemma pairs_split H L :
  0 <= H -> 0 <= L < 65536 ->
  (H * 65536 + L) - Z.land (Z.shiftr (H * 65536 + L) 1) 0x55555555 =
  pc16_pairs H * 65536 + pc16_pairs L.
Proof.
  intros HH HL. unfold pc16_pairs. rewrite !Z.shiftr_div_pow2 by lia.
  change (2 ^ 1) with 2.
  replace ((H * 65536 + L) / 2)
    with ((H / 2) * 65536 + ((H mod 2) * 32768 + L / 2)) by zlia.
  change 0x55555555 with (0x5555 * 65536 + 0x5555).
  rewrite land_split16 by zlia.
  rewrite (land_low 15 ((H mod 2) * 32768 + L / 2)) by (cbn; lia).
  replace (((H mod 2) * 32768 + L / 2) mod 2 ^ 15) with (L / 2) by zlia.
  lia.
Qed.

Lemma nibbles_split H L :
  0 <= H -> 0 <= L < 65536 ->
  Z.land (Z.shiftr (H * 65536 + L) 2) 0x33333333 +
  Z.land (H * 65536 + L) 0x33333333 =
  pc16_nibbles H * 65536 + pc16_nibbles L.
Proof.
  intros HH HL. unfold pc16_nibbles. rewrite !Z.shiftr_div_pow2 by lia.
  change (2 ^ 2) with 4.
  replace ((H * 65536 + L) / 4)
    with ((H / 4) * 65536 + ((H mod 4) * 16384 + L / 4)) by zlia.
  change 0x33333333 with (0x3333 * 65536 + 0x3333).
  rewrite !land_split16 by zlia.
  rewrite (land_low 14 ((H mod 4) * 16384 + L / 4)) by (cbn; lia).
  replace (((H mod 4) * 16384 + L / 4) mod 2 ^ 14) with (L / 4) by zlia.
  lia.
Qed.

Lemma bytes_split H L :
  0 <= H -> H mod 16 <= 4 -> 0 <= L <= 0x4444 ->
  Z.land (Z.shiftr (H * 65536 + L) 4 + (H * 65536 + L)) 0x0f0f0f0f =
  pc16_bytes H * 65536 + pc16_bytes L.
Proof.
  intros HH Hn HL. unfold pc16_bytes. rewrite !Z.shiftr_div_pow2 by lia.
  change (2 ^ 4) with 16.
  replace ((H * 65536 + L) / 16 + (H * 65536 + L))
    with ((H / 16 + H) * 65536 + ((H mod 16) * 4096 + L / 16 + L)) by zlia.
  change 0x0f0f0f0f with (0x0f0f * 65536 + 0x0f0f).
  rewrite land_split16 by zlia.
  rewrite (land_low 12 ((H mod 16) * 4096 + L / 16 + L)) by (cbn; lia).
  rewrite (land_low 12 (L / 16 + L)) by (cbn; lia).
  replace (((H mod 16) * 4096 + L / 16 + L) mod 2 ^ 12)
    with ((L / 16 + L) mod 2 ^ 12) by zlia.
  reflexivity.
Qed.

(** The operators on [std::uint32_t] values. *)
Lemma shr_u32 a n :
  0 <= n < 32 -> shr (V U32 a) (lit n) = Some (V U32 (Z.shiftr (conv U32 a) n)).
Proof.
  intros Hn. unfold shr, shift_ok, lit. cbn [promote ty num sizeof bits
    Nat.ltb Nat.leb is_signed int].
  change (bits (promote U32)) with 32.
  replace ((0 <=? n) && (n <? 32)) with true; [reflexivity | ].
  symmetry. apply andb_true_iff. split; [apply Z.leb_le | apply Z.ltb_lt]; lia.
Qed.

Lemma band_u32_lit a c :
  u32 a -> 0 <= c < 2 ^ 31 -> band (V U32 a) (lit c) = V U32 (Z.land a c).
Proof.
  intros Ha Hc. unfold band, lit. cbn [ty num].
  change (common U32 int) with U32.
  rewrite !conv_u32; [reflexivity | unfold u32; zlia | exact Ha].
Qed.

Lemma add_u32 a b :
  u32 a -> u32 b ->
  add sovf (V U32 a) (V U32 b) = Some (V U32 ((a + b) mod 2 ^ 32)).
Proof.
  intros Ha Hb. unfold add. cbn [ty num]. change (common U32 U32) with U32.
  rewrite arith_unsigned by reflexivity. rewrite !conv_u32 by assumption.
  reflexivity.
Qed.

Lemma sub_u32 a b :
  u32 a -> u32 b ->
  sub sovf (V U32 a) (V U32 b) = Some (V U32 ((a - b) mod 2 ^ 32)).
Proof.
  intros Ha Hb. unfold sub. cbn [ty num]. change (common U32 U32) with U32.
  rewrite arith_unsigned by reflexivity. rewrite !conv_u32 by assumption.
  reflexivity.
Qed.

Lemma assign_u32 a b : u32 b -> assign (V U32 a) (V U32 b) = V U32 b.
Proof.
  intros Hb. unfold assign, cast. cbn [ty num]. rewrite conv_u32 by exact Hb.
  reflexivity.
Qed.

Lemma popcnt32_unfold x :
  u32 x ->
  popcnt32 sovf x =
  (let x1 := (x - Z.land (Z.shiftr x 1) 0x55555555) mod 2 ^ 32 in
   let x2 := (Z.land (Z.shiftr x1 2) 0x33333333 + Z.land x1 0x33333333)
               mod 2 ^ 32 in
   let x3 := Z.land ((Z.shiftr x2 4 + x2) mod 2 ^ 32) 0x0f0f0f0f in
   let x4 := (x3 + Z.shiftr x3 8) mod 2 ^ 32 in
   let x5 := (x4 + Z.shiftr x4 16) mod 2 ^ 32 in
   Some (Z.land x5 0x3f)).
Proof.
  intros Hx. unfold popcnt32.
  change (param uint32_t x) with (V U32 (conv U32 x)).
  rewrite (conv_u32 x Hx). cbv zeta.
  rewrite shr_u32, conv_u32 by (auto; lia). next.
  rewrite band_u32_lit, sub_u32 by (auto with w32; zlia). next.
  rewrite assign_u32 by auto with w32.
  set (x1 := (x - _) mod 2 ^ 32). assert (H1 : u32 x1) by apply u32_mod.
  rewrite shr_u32, conv_u32 by (auto; lia). next.
  rewrite !band_u32_lit, add_u32 by (auto with w32; zlia). next.
  rewrite assign_u32 by auto with w32.
  set (x2 := (_ + _) mod 2 ^ 32). assert (H2 : u32 x2) by apply u32_mod.
  rewrite shr_u32, conv_u32 by (auto; lia). next.
  rewrite add_u32 by auto with w32. next.
  rewrite band_u32_lit, assign_u32 by (auto with w32; zlia).
  set (x3 := Z.land _ 0x0f0f0f0f).
  assert (H3 : u32 x3) by (apply u32_land, u32_mod).
  rewrite shr_u32, conv_u32 by (auto; lia). next.
  rewrite add_u32 by auto with w32. next.
  rewrite assign_u32 by auto with w32.
  set (x4 := (_ + _) mod 2 ^ 32). assert (H4 : u32 x4) by apply u32_mod.
  rewrite shr_u32, conv_u32 by (auto; lia). next.
  rewrite add_u32 by auto with w32. next.
  rewrite assign_u32 by auto with w32.
  set (x5 := (_ + _) mod 2 ^ 32). assert (H5 : u32 x5) by apply u32_mod.
  rewrite band_u32_lit by (auto; zlia).
  unfold ret, cast, uint32_t. cbn [num]. rewrite conv_u32 by auto with w32.
  reflexivity.
Qed.

Lemma popcount_concat16 H L :
  0 <= H -> 0 <= L < 65536 ->
  popcount (H * 65536 + L) = popcount H + popcount L.
Proof. intros HH HL. apply (popcount_concat 16); [exact HH | exact HL]. Qed.

Lemma pc16_facts v :
  0 <= v < 65536 ->
  let w1 := pc16_pairs v in
  let w2 := pc16_nibbles w1 in
  let w3 := pc16_bytes w2 in
  0 <= w1 < 65536 /\ (0 <= w2 <= 0x4444 /\ w2 mod 16 <= 4) /\
  0 <= w3 /\ w3 / 256 <= 8 /\ w3 mod 256 <= 8 /\
  w3 / 256 + w3 mod 256 = popcount v.
Proof.
  intros Hv. pose proof (pc16_ok_all v Hv) as K. unfold pc16_ok in K.
  cbv zeta in *.
  repeat match goal with
         | K : _ && _ = true |- _ =>
             apply andb_true_iff in K; let K' := fresh "K" in
             destruct K as [K K']
         | K : (_ <=? _) = true |- _ => apply Z.leb_le in K
         | K : (_ <? _) = true |- _ => apply Z.ltb_lt in K
         | K : (_ =? _) = true |- _ => apply Z.eqb_eq in K
         end.
  repeat split; assumption.
Qed.

Lemma popcnt32_value x : 0 <= x < 2 ^ 32 -> popcnt32 sovf x = Some (popcount x).
Proof.
  intros Hx. rewrite popcnt32_unfold by exact Hx. cbv zeta. f_equal.
  pose proof (Z.div_mod x 65536 ltac:(lia)) as Hd.
  pose proof (Z.mod_pos_bound x 65536 ltac:(lia)) as HL.
  assert (HH : 0 <= x / 65536 < 65536) by zlia.
  set (H := x / 65536) in *. set (L := x mod 65536) in *.
  assert (Ex : x = H * 65536 + L) by lia. clearbody H L. clear Hd Hx. subst x.
  destruct (pc16_facts H HH) as (Ha1 & (Ha2 & Ha2') & Ha3 & Hah & Hal & Ha).
  destruct (pc16_facts L HL) as (Hb1 & (Hb2 & Hb2') & Hb3 & Hbh & Hbl & Hb).
  rewrite (popcount_concat16 H L) by lia. rewrite <- Ha, <- Hb.
  rewrite pairs_split by lia.
  set (a1 := pc16_pairs H) in *. set (b1 := pc16_pairs L) in *.
  rewrite (Z.mod_small (a1 * 65536 + b1)) by zlia.
  rewrite nibbles_split by lia.
  set (a2 := pc16_nibbles a1) in *. set (b2 := pc16_nibbles b1) in *.
  rewrite (Z.mod_small (a2 * 65536 + b2)) by zlia.
  rewrite (Z.mod_small (Z.shiftr _ 4 + _))
    by (rewrite Z.shiftr_div_pow2 by lia; zlia).
  rewrite bytes_split by lia.
  set (a3 := pc16_bytes a2) in *. set (b3 := pc16_bytes b2) in *.
  change 0x3f with (Z.ones 6). rewrite Z.land_ones by lia.
  rewrite !Z.shiftr_div_pow2 by lia.
  clearbody a3 b3. clear - Ha3 Hah Hal Hb3 Hbh Hbl.
  pose proof (Z.div_mod a3 256 ltac:(lia)) as Ea.
  pose proof (Z.div_mod b3 256 ltac:(lia)) as Eb.
  pose proof (Z.mod_pos_bound a3 256 ltac:(lia)) as Ba.
  pose proof (Z.mod_pos_bound b3 256 ltac:(lia)) as Bb.
  assert (0 <= a3 / 256) by zlia. assert (0 <= b3 / 256) by zlia.
  set (p := a3 / 256) in *. set (q := a3 mod 256) in *.
  set (r := b3 / 256) in *. set (s := b3 mod 256) in *.
  clearbody p q r s. subst a3 b3.
  replace (((256 * p + q) * 65536 + (256 * r + s)) / 2 ^ 8)
    with (p * 65536 + q * 256 + r) by zlia.
  rewrite (Z.mod_small (_ + _) (2 ^ 32)) by zlia.
  replace (((256 * p + q) * 65536 + (256 * r + s) + (p * 65536 + q * 256 + r))
           / 2 ^ 16) with (p * 256 + (p + q)) by zlia.
  rewrite (Z.mod_small (_ + _) (2 ^ 32)) by zlia.
  zlia.
Qed.

(** X22.  [popcnt32(x)] is the number of set bits of [x], for every 32-bit
    [x]; it is at most 32, and 0 only for [x = 0]. *)
Theorem popcnt32_correct x :
  0 <= x < 2 ^ 32 ->
  popcnt32 sovf x = Some (popcount x) /\
  0 <= popcount x <= 32 /\ (popcount x = 0 <-> x = 0).
Proof.
  intros Hx. split; [apply popcnt32_value, Hx | ].
  pose proof (Z.div_mod x 65536 ltac:(lia)) as Hd.
  pose proof (Z.mod_pos_bound x 65536 ltac:(lia)) as HL.
  assert (HH : 0 <= x / 65536 < 65536) by zlia.
  assert (Ex : x = (x / 65536) * 65536 + x mod 65536) by lia.
  destruct (pc16_facts _ HH) as (_ & _ & Ha3 & Hah & Hal & Ha).
  destruct (pc16_facts _ HL) as (_ & _ & Hb3 & Hbh & Hbl & Hb).
  rewrite Ex at 1 2 3. rewrite popcount_concat16 by lia.
  assert (P0 : forall v, 0 <= v -> 0 <= popcount v /\ (popcount v = 0 <-> v = 0)).
  { intros [ | p | p] Hv; try lia; [cbn; lia | ].
    cbn. split; [ | split; [ | discriminate]];
      induction p; cbn; lia. }
  destruct (P0 (x / 65536) ltac:(lia)) as [Pa Za].
  destruct (P0 (x mod 65536) ltac:(lia)) as [Pb Zb].
  split; [ | split; intros E].
  - rewrite <- Ha, <- Hb.
    assert (0 <= pc16_bytes (pc16_nibbles (pc16_pairs (x / 65536))) / 256) by zlia.
    assert (0 <= pc16_bytes (pc16_nibbles (pc16_pairs (x mod 65536))) / 256) by zlia.
    split; [lia | ].
    pose proof (Z.mod_pos_bound
      (pc16_bytes (pc16_nibbles (pc16_pairs (x / 65536)))) 256 ltac:(lia)).
    lia.
  - assert (E1 : x / 65536 = 0) by (apply Za; lia).
    assert (E2 : x mod 65536 = 0) by (apply Zb; lia). lia.
  - subst x. reflexivity.
Qed.

(** ** The three counts together *)

Lemma ctz32_value x :
  0 <= x < 2 ^ 32 -> ctz32 sovf x = Some (if x =? 0 then 32 else ntz x).
Proof.
  intros Hx. rewrite ctz32_unfold, (Z.mod_small x) by assumption.
  destruct (Z.eqb_spec x 0) as [-> | Hnz]; [reflexivity | ].
  assert (Hp : 0 < x) by lia.
  pose proof (ntz_nonneg x) as H0.
  pose proof (ntz_bound x 32 ltac:(lia) ltac:(lia)) as H32.
  rewrite <- (Z.mod_small x (2 ^ 32)) at 1 by assumption.
  rewrite <- land_mod_r, (Z.mod_small x) by (assumption || lia).
  rewrite land_opp_lowest by assumption.
  assert (0 < 2 ^ ntz x) by (apply Z.pow_pos_nonneg; lia).
  assert (2 ^ ntz x < 2 ^ 32) by (apply Z.pow_lt_mono_r; lia).
  rewrite Z.mod_small by lia. apply popcnt32_ones. lia.
Qed.

Lemma popcount_log2 v : 0 < v -> 1 <= popcount v <= Z.log2 v + 1.
Proof.
  destruct v as [ | p | p]; try lia. intros _.
  induction p as [p IH | p IH | ].
  - change (Z.pos p~1) with (2 * Z.pos p + Z.b2z true).
    rewrite popcount_bit by lia. cbn [Z.b2z].
    rewrite Z.log2_succ_double by lia. lia.
  - change (Z.pos p~0) with (2 * Z.pos p).
    pose proof (popcount_bit (Z.pos p) false ltac:(lia)) as K.
    cbn [Z.b2z] in K. rewrite Z.add_0_r in K. rewrite K.
    rewrite Z.log2_double by lia. lia.
  - cbn. lia.
Qed.

Lemma popcount_mul_pow2 k m :
  0 <= k -> 0 <= m -> popcount (2 ^ k * m) = popcount m.
Proof.
  intros Hk Hm. rewrite <- (Z2Nat.id k) by lia.
  replace (2 ^ Z.of_nat (Z.to_nat k) * m)
    with (m * 2 ^ Z.of_nat (Z.to_nat k) + 0) by lia.
  rewrite popcount_concat; [cbn [popcount]; lia | exact Hm | ].
  split; [lia | apply Z.pow_pos_nonneg; lia].
Qed.

(** X23.  On a nonzero 32-bit word the three counts fit together: the
    zeros below the lowest set bit, the set bits and the zeros above the
    highest set bit are at most 32 bits in all; [2 ^ ctz32(x)] divides [x]
    and [x < 2 ^ (32 - clz32(x))]; and [x] has a single set bit exactly if it
    is [2 ^ ctz32(x)], exactly if [ctz32(x) + clz32(x) = 31]. *)
Theorem ctz32_clz32_popcnt32_agree x :
  0 < x < 2 ^ 32 ->
  exists t c p,
    ctz32 sovf x = Some t /\ clz32 sovf x = Some c /\
    popcnt32 sovf x = Some p /\
    0 <= t /\ 0 <= c /\ 1 <= p /\ t + p + c <= 32 /\
    x mod 2 ^ t = 0 /\ x < 2 ^ (32 - c) /\
    (p = 1 <-> x = 2 ^ t) /\ (p = 1 <-> t + c = 31).
Proof.
  intros Hx. exists (ntz x), (31 - Z.log2 x), (popcount x).
  assert (Hl : 0 <= Z.log2 x < 32)
    by (split; [apply Z.log2_nonneg | apply Z.log2_lt_pow2; lia]).
  pose proof (ntz_nonneg x) as Ht.
  destruct (ntz_odd_part x ltac:(lia)) as [m [Hm E]].
  assert (P2 : 0 < 2 ^ ntz x) by (apply Z.pow_pos_nonneg; lia).
  assert (Hlog : Z.log2 x = ntz x + Z.log2 (2 * m + 1)).
  { rewrite E at 1. rewrite Z.mul_comm, Z.log2_mul_pow2 by lia. lia. }
  assert (Hpc : popcount x = popcount (2 * m + 1)).
  { rewrite E at 1. apply popcount_mul_pow2; lia. }
  pose proof (popcount_log2 (2 * m + 1) ltac:(lia)) as Hb.
  pose proof (Z.log2_nonneg (2 * m + 1)) as Hl0.
  assert (Hone : popcount x = 1 <-> m = 0).
  { rewrite Hpc. change (2 * m + 1) with (2 * m + Z.b2z true).
    rewrite popcount_bit by lia. cbn [Z.b2z].
    destruct (Z.eq_dec m 0) as [-> | Hnz]; [cbn; lia | ].
    pose proof (popcount_log2 m ltac:(lia)). lia. }
  assert (Hlm : Z.log2 (2 * m + 1) = 0 <-> m = 0).
  { destruct (Z.eq_dec m 0) as [-> | Hnz]; [cbn; lia | ].
    rewrite Z.log2_succ_double by lia.
    pose proof (Z.log2_nonneg m). lia. }
  split; [rewrite ctz32_value by lia;
          destruct (Z.eqb_spec x 0); [lia | reflexivity] | ].
  split; [rewrite clz32_value by lia;
          destruct (Z.eqb_spec x 0); [lia | reflexivity] | ].
  split; [apply popcnt32_value; lia | ].
  split; [exact Ht | ]. split; [lia | ]. split; [lia | ]. split; [lia | ].
  split; [rewrite E at 1; rewrite Z.mul_comm; apply Z.mod_mul; lia | ].
  split.
  { replace (32 - (31 - Z.log2 x)) with (Z.succ (Z.log2 x)) by lia.
    apply Z.log2_spec. lia. }
  split.
  - rewrite Hone. split; [intros ->; lia | intros E'; nia].
  - rewrite Hone. lia.
Qed.

(** ** Rounding a negative value *)

Lemma lor_shiftr_lnot y s :
  0 <= s ->
  Z.lor y (Z.shiftr y s) =
  Z.lnot (Z.land (Z.lnot y) (Z.shiftr (Z.lnot y) s)).
Proof.
  intros Hs. apply Z.bits_inj'. intros i Hi.
  rewrite Z.lnot_spec, Z.lor_spec, Z.land_spec, !Z.shiftr_spec by lia.
  rewrite !Z.lnot_spec by lia.
  destruct (Z.testbit y i), (Z.testbit y (i + s)); reflexivity.
Qed.

(** On a negative [y] the smearing fills downwards from the sign: after the
    shift by [s] the [s] bits below the former top are set as well. *)
Lemma smear_neg_step s y :
  0 < s -> - 2 ^ (2 * s - 1) <= y < 0 ->
  - 2 ^ (s - 1) <= Z.lor y (Z.shiftr y s) < 0.
Proof.
  intros Hs Hy. rewrite lor_shiftr_lnot by lia.
  assert (Hz : 0 <= Z.lnot y < 2 ^ (2 * s - 1)) by (unfold Z.lnot; lia).
  set (z := Z.lnot y) in *.
  assert (Hsh : 0 <= Z.shiftr z s < 2 ^ (s - 1)).
  { rewrite Z.shiftr_div_pow2 by lia.
    assert (0 < 2 ^ s) by (apply Z.pow_pos_nonneg; lia).
    split; [apply Z.div_pos; lia | ].
    apply Z.div_lt_upper_bound; [lia | ].
    rewrite <- Z.pow_add_r by lia. replace (s + (s - 1)) with (2 * s - 1) by lia.
    lia. }
  pose proof (land_small (s - 1) (Z.shiftr z s) z ltac:(lia) Hsh ltac:(lia)) as K.
  rewrite Z.land_comm in K. unfold Z.lnot. lia.
Qed.

Lemma NextPowOfTwo_step_neg T y s :
  min_of T <= y < 0 -> 0 < s < bits (promote T) ->
  in_range T (Z.lor y (Z.shiftr y s)) ->
  NextPowOfTwo sovf T y s =
  NextPowOfTwo sovf T (Z.lor y (Z.shiftr y s)) (Z.shiftr s 1).
Proof.
  intros Hy Hs Hr.
  assert (HyT : in_range T y) by (destruct T; unfold_range; zlia).
  assert (Hsi : in_range int s)
    by (destruct T; unfold int; cbn in Hs; unfold_range; zlia).
  assert (Hsh : y <= Z.shiftr y s < 0).
  { split; [ | apply Z.shiftr_neg; lia].
    rewrite Z.shiftr_div_pow2 by lia.
    assert (0 < 2 ^ s) by (apply Z.pow_pos_nonneg; lia).
    apply Z.div_le_lower_bound; [lia | nia]. }
  rewrite NextPowOfTwo_eq by assumption. cbv zeta.
  rewrite (param_id int s Hsi), (param_id T y HyT), (eqv_int_0 s Hsi).
  replace (s =? 0) with false by (symmetry; apply Z.eqb_neq; lia).
  rewrite shr_val by (assumption || lia).
  rewrite shr_int_1 by assumption. unfold bind at 2 3.
  rewrite bor_val
    by (try assumption; apply promote_range; destruct T; unfold_range; zlia).
  cbn [num].
  destruct (NextPowOfTwo sovf T _ _) as [z | ] eqn:E; [ | reflexivity ].
  apply NextPowOfTwo_range in E. unfold bind, ret, cast. cbn [num].
  rewrite (conv_id _ _ E). reflexivity.
Qed.

Lemma NextPowOfTwo_all_ones T :
  is_signed T = true -> NextPowOfTwo sovf T (-1) 0 = Some 0.
Proof. intros HT. destruct T, sovf; try discriminate HT; reflexivity. Qed.

Lemma NextPowOfTwo_smear_neg T (j : nat) :
  forall y,
    - 2 ^ (2 ^ Z.of_nat (S j) - 1) <= y < 0 ->
    2 ^ Z.of_nat (S j) <= bits T ->
    2 ^ Z.of_nat j < bits (promote T) ->
    is_signed T = true ->
    NextPowOfTwo sovf T y (2 ^ Z.of_nat j) = Some 0.
Proof.
  assert (Hpow : forall i : nat, 2 ^ Z.of_nat (S i) = 2 * 2 ^ Z.of_nat i)
    by (intros i; rewrite Nat2Z.inj_succ, Z.pow_succ_r by lia; reflexivity).
  assert (Hpos : forall i : nat, 0 < 2 ^ Z.of_nat i)
    by (intros i; apply Z.pow_pos_nonneg; lia).
  assert (Hmin : min_of T = - 2 ^ (bits T - 1) \/ is_signed T = false)
    by (destruct T; (left; reflexivity) || (right; reflexivity)).
  induction j as [ | j IH]; intros y Hy Hw Hs HT;
    (destruct Hmin as [Hmin | Hu]; [ | congruence]).
  - change (2 ^ Z.of_nat 1) with 2 in *. change (2 ^ Z.of_nat 0) with 1 in *.
    pose proof (smear_neg_step 1 y ltac:(lia) ltac:(cbn; cbn in Hy; lia)) as K.
    change (2 ^ (1 - 1)) with 1 in K.
    assert (L : 2 ^ 1 <= 2 ^ (bits T - 1)) by (apply Z.pow_le_mono_r; lia).
    change (2 ^ (2 - 1)) with 2 in Hy. change (2 ^ 1) with 2 in L.
    rewrite NextPowOfTwo_step_neg
      by (try lia; unfold in_range; destruct T; try discriminate HT;
          unfold_range; zlia).
    change (Z.shiftr 1 1) with 0.
    replace (Z.lor y (Z.shiftr y 1)) with (-1) by lia.
    apply NextPowOfTwo_all_ones, HT.
  - pose proof (Hpos (S j)) as Hp. pose proof (Hpos j) as Hp'.
    pose proof (Hpow (S j)) as E2. pose proof (Hpow j) as E1.
    set (s := 2 ^ Z.of_nat (S j)) in *.
    assert (K : - 2 ^ (s - 1) <= Z.lor y (Z.shiftr y s) < 0)
      by (apply smear_neg_step; [lia | ];
          replace (2 * s - 1) with (2 ^ Z.of_nat (S (S j)) - 1) by lia;
          exact Hy).
    assert (L : 2 ^ (s - 1) <= 2 ^ (bits T - 1))
      by (apply Z.pow_le_mono_r; lia).
    assert (L' : 2 ^ (2 ^ Z.of_nat (S (S j)) - 1) <= 2 ^ (bits T - 1))
      by (apply Z.pow_le_mono_r; lia).
    rewrite NextPowOfTwo_step_neg; [ | lia | lia | unfold in_range ].
    + replace (Z.shiftr s 1) with (2 ^ Z.of_nat j)
        by (rewrite Z.shiftr_div_pow2 by lia; change (2 ^ 1) with 2;
            Z.div_mod_to_equations; lia).
      apply IH; [exact K | lia | lia | exact HT].
    + assert (0 <= max_of T) by (destruct T; unfold_range; zlia). lia.
Qed.

Lemma sub_1_neg T x :
  min_of T < x < 0 ->
  sub sovf (V T x) (lit 1) = Some (V (common T int) (x - 1)).
Proof.
  intros Hx. destruct T; try (exfalso; revert Hx; unfold_range; zlia).
  all: lazymatch goal with
       | |- ?m = ?R => let m' := ops_in m in change (m' = R)
       end.
  all: rewrite arith_ok by range.
  all: do 2 f_equal; range.
Qed.

(** X24.  A negative [x] above the least value of its type is rounded to 0:
    the smearing of [x - 1] sets every bit (the right shifts copy the sign)
    and the final [1 + x] gives 0.  No step overflows. *)
Theorem RoundToNextPowOfTwo_negative T x :
  min_of T < x < 0 -> RoundToNextPowOfTwo sovf T x = Some 0.
Proof.
  intros Hx.
  assert (HT : is_signed T = true)
    by (destruct T; try reflexivity; exfalso; revert Hx; unfold_range; zlia).
  assert (HxT : in_range T x) by (destruct T; unfold_range; zlia).
  destruct (half_width sovf T) as [j [Hmul [Hconv [Hw Hlt]]]].
  unfold RoundToNextPowOfTwo.
  rewrite (param_id T x HxT), (eqv_0 T x HxT).
  replace (x =? 0) with false by (symmetry; apply Z.eqb_neq; lia).
  rewrite sub_1_neg, Hmul by assumption. unfold bind at 2 3. unfold cast.
  cbn [num]. rewrite Hconv.
  rewrite NextPowOfTwo_smear_neg;
    [destruct T; reflexivity | | lia | exact Hlt | exact HT].
  rewrite Hw. destruct T; try discriminate HT; revert Hx; unfold_range; zlia.
Qed.

(** ** [SLeft] outside the exponents of its description *)

(** X25.  The shift of [SLeft] is an [int] shift whatever [T] is: a
    negative exponent and an exponent of 32 or more are undefined, also on
    the 64-bit types; an exponent from the width of [T] up to 31, possible
    on the 8- and 16-bit types, gives 0; and every exponent below 31 whose
    power fits [T] gives that power. *)
Theorem SLeft_by_exponent T n :
  in_range T n ->
  (n < 0 \/ 32 <= n -> SLeft T n = None) /\
  (bits T <= n < 32 -> SLeft T n = Some 0) /\
  (0 <= n < 31 -> 2 ^ n <= max_of T -> SLeft T n = Some (2 ^ n)).
Proof.
  intros Hn. split; [ | split].
  - intros Hout. rewrite SLeft_eq by exact Hn.
    replace ((0 <=? n) && (n <? 32)) with false; [reflexivity | ].
    symmetry. apply andb_false_iff.
    destruct Hout; [left; apply Z.leb_gt | right; apply Z.ltb_ge]; lia.
  - intros Hw. rewrite SLeft_eq by exact Hn.
    assert (Hb : 8 <= bits T) by (destruct T; cbn; lia).
    replace ((0 <=? n) && (n <? 32)) with true
      by (symmetry; apply andb_true_iff; split;
          [apply Z.leb_le | apply Z.ltb_lt]; lia).
    f_equal.
    assert (E : 2 ^ n = 2 ^ bits T * 2 ^ (n - bits T))
      by (rewrite <- Z.pow_add_r by lia; f_equal; lia).
    assert (P : 0 < 2 ^ (n - bits T)) by (apply Z.pow_pos_nonneg; lia).
    assert (L : 2 ^ n <= 2 ^ 31) by (apply Z.pow_le_mono_r; lia).
    rewrite <- (conv_id T 0) by (destruct T; unfold_range; zlia).
    apply conv_eq_mod. rewrite Zmod_0_l.
    generalize dependent (2 ^ (n - bits T)). intros q E P.
    generalize dependent (2 ^ n). intros p L E. subst p. clear Hn Hw n.
    destruct T; cbn [bits] in *; range.
  - intros Hlo Hmax. apply SLeft_small; assumption.
Qed.

End MoreProperties.

(** * Instances of the further properties *)

Lemma to_uint_t_round_trip_int16 :
  in_range I16 (-5) /\
  num (cast I16 (cast (to_uint_t I16) (V I16 (-5)))) = -5 /\
  num (cast I16 (cast (to_int_t I16) (V I16 (-5)))) = -5.
Proof.
  assert (H : in_range I16 (-5)) by closed_range.
  split; [exact H | ].
  exact (proj2 (proj2 (proj2 (proj2 (to_uint_t_round_trip I16 (-5) H))))).
Defined.

Lemma Log2Int_floor_at_40 :
  in_range U32 40 /\
  exists r, Log2Int Undefined U32 40 0 = Some r /\
            (40 <= 1 -> r = 0) /\
            (1 <= 40 -> 0 <= r /\ 2 ^ r <= 40 < 2 ^ (r + 1)).
Proof.
  assert (H : in_range U32 40) by closed_range.
  split; [exact H | ].
  exact (Log2Int_floor Undefined U32 40 H).
Defined.

Lemma Log2Int_accumulates_at_40 :
  in_range I32 40 /\ 0 <= 3 <= 2 ^ 30 /\
  Log2Int Undefined I32 40 3 = Some (conv I32 (3 + Z.log2 40)).
Proof.
  assert (H : in_range I32 40) by closed_range.
  assert (K : 0 <= 3 <= 2 ^ 30) by lia.
  split; [exact H | split; [exact K | ]].
  exact (proj1 (Log2Int_accumulates Undefined I32 40 3 H K)).
Defined.

Lemma Log2IntRoundUp_bit_length_at_1024 :
  in_range I32 1024 /\
  exists r, Log2IntRoundUp Undefined I32 1024 = Some r /\
            (1024 < 1 -> r = 0) /\
            (1 <= 1024 -> 1 <= r /\ 2 ^ (r - 1) <= 1024 < 2 ^ r) /\
            (0 <= 1024 -> r = Z.log2_up (1024 + 1)).
Proof.
  assert (H : in_range I32 1024) by closed_range.
  split; [exact H | ].
  exact (Log2IntRoundUp_bit_length Undefined I32 1024 H).
Defined.

Lemma RoundToNextPowOfTwo_Log2IntRoundUp_at_5 :
  1 <= 5 /\ 2 ^ Z.log2_up 5 <= max_of U32 /\
  exists r p,
    Log2IntRoundUp Undefined U32 (5 - 1) = Some r /\
    RoundToNextPowOfTwo Undefined U32 5 = Some p /\
    p = 2 ^ r /\ Log2Int Undefined U32 p 0 = Some r.
Proof.
  assert (H : 1 <= 5) by lia.
  assert (K : 2 ^ Z.log2_up 5 <= max_of U32) by closed_range.
  split; [exact H | split; [exact K | ]].
  exact (RoundToNextPowOfTwo_Log2IntRoundUp Undefined U32 5 H K).
Defined.

Lemma isDivBy2PowerX_correct_at_minus_48 :
  in_range I32 (-48) /\ in_range I32 4 /\ 0 <= 4 <= 30 /\
  isDivBy2PowerX Undefined I32 I32 (-48) 4 = Some (-48 mod 2 ^ 4 =? 0) /\
  (isDivBy2PowerX Undefined I32 I32 (-48) 4 = Some true <-> (2 ^ 4 | -48)).
Proof.
  assert (H : in_range I32 (-48)) by closed_range.
  assert (K : in_range I32 4) by closed_range.
  assert (L : 0 <= 4 <= 30) by lia.
  split; [exact H | split; [exact K | split; [exact L | ]]].
  exact (isDivBy2PowerX_correct Undefined I32 I32 (-48) 4 H K L).
Defined.

Lemma isDivBy2PowerX_undefined_at_32 :
  in_range I32 32 /\ (32 < 0 \/ 32 <= 32) /\
  isDivBy2PowerX Undefined U64 I32 (2 ^ 40) 32 = None.
Proof.
  assert (H : in_range I32 32) by closed_range.
  assert (K : 32 < 0 \/ 32 <= 32) by (right; lia).
  split; [exact H | split; [exact K | ]].
  exact (isDivBy2PowerX_undefined Undefined U64 I32 (2 ^ 40) 32 H K).
Defined.

Lemma Align_least_multiple_at_57 :
  in_range U32 57 /\ 0 <= 4 <= 30 /\
  in_range U32 (2 ^ 4 * ((57 + 2 ^ 4 - 1) / 2 ^ 4)) /\
  exists hi,
    Align Undefined U32 57 (2 ^ 4) = Some hi /\
    (2 ^ 4 | hi) /\ 57 <= hi < 57 + 2 ^ 4 /\
    forall m, (2 ^ 4 | m) -> 57 <= m -> hi <= m.
Proof.
  assert (H : in_range U32 57) by closed_range.
  assert (K : 0 <= 4 <= 30) by lia.
  assert (L : in_range U32 (2 ^ 4 * ((57 + 2 ^ 4 - 1) / 2 ^ 4)))
    by closed_range.
  split; [exact H | split; [exact K | split; [exact L | ]]].
  exact (Align_least_multiple Undefined U32 57 4 H K L).
Defined.

Lemma Align_results_are_aligned_at_250 :
  in_range U8 250 /\ 0 <= 4 <= 30 /\
  exists hi,
    Align Undefined U8 250 (2 ^ 4) = Some hi /\
    in_range U8 hi /\
    isAlign Undefined U8 hi (2 ^ 4) = Some true /\
    Align Undefined U8 hi (2 ^ 4) = Some hi.
Proof.
  assert (H : in_range U8 250) by closed_range.
  assert (K : 0 <= 4 <= 30) by lia.
  split; [exact H | split; [exact K | ]].
  exact (Align_results_are_aligned Undefined U8 250 4 H K).
Defined.

Lemma Align_wraps_to_zero_at_250 :
  is_signed U8 = false /\ in_range U8 250 /\ 0 <= 4 <= 30 /\ 4 <= bits U8 /\
  max_of U8 + 1 - 2 ^ 4 < 250 /\
  Align Undefined U8 250 (2 ^ 4) = Some 0.
Proof.
  assert (H : in_range U8 250) by closed_range.
  assert (K : 0 <= 4 <= 30) by lia.
  assert (L : 4 <= bits U8) by (cbn; lia).
  assert (M : max_of U8 + 1 - 2 ^ 4 < 250) by closed_range.
  split; [reflexivity | ].
  split; [exact H | split; [exact K | split; [exact L | split; [exact M | ]]]].
  exact (Align_wraps_to_zero Undefined U8 250 4 eq_refl H K L M).
Defined.

Lemma Align_edge_cases_int16 :
  in_range I16 (-7) /\ 0 <= 3 <= 30 /\
  (Align Undefined I16 (-7) 1 = Some (-7) /\
   isAlign Undefined I16 (-7) 1 = Some true) /\
  (Align Undefined I16 0 (2 ^ 3) = Some 0 /\
   isAlign Undefined I16 0 (2 ^ 3) = Some true).
Proof.
  assert (H : in_range I16 (-7)) by closed_range.
  assert (K : 0 <= 3 <= 30) by lia.
  split; [exact H | split; [exact K | ]].
  exact (Align_edge_cases Undefined I16 (-7) 3 H K).
Defined.

Lemma isPowTwo_characterised_at_64 :
  in_range I32 64 /\
  (64 <> min_of I32 \/ bits I32 < 32 \/ is_signed I32 = false) /\
  (isPowTwo Undefined I32 64 = Some true <-> 64 = 0 \/ is_pow2 64).
Proof.
  assert (H : in_range I32 64) by closed_range.
  assert (K : 64 <> min_of I32 \/ bits I32 < 32 \/ is_signed I32 = false)
    by (left; closed_range).
  split; [exact H | split; [exact K | ]].
  exact (proj1 (proj2 (isPowTwo_characterised Undefined I32 64 H K))).
Defined.

Lemma RoundToNextPowOfTwo_overflows_to_zero_at_200 :
  is_signed U8 = false /\ 2 ^ (bits U8 - 1) < 200 <= max_of U8 /\
  RoundToNextPowOfTwo Undefined U8 200 = Some 0.
Proof.
  assert (H : 2 ^ (bits U8 - 1) < 200 <= max_of U8) by closed_range.
  split; [reflexivity | split; [exact H | ]].
  exact (RoundToNextPowOfTwo_overflows_to_zero Undefined U8 200 eq_refl H).
Defined.

Lemma RoundToNextPowOfTwo_below_double_at_5_9 :
  0 < 5 <= 9 /\ 2 ^ Z.log2_up 9 <= max_of U32 /\
  exists rx ry,
    RoundToNextPowOfTwo Undefined U32 5 = Some rx /\
    RoundToNextPowOfTwo Undefined U32 9 = Some ry /\
    5 <= rx < 2 * 5 /\ rx <= ry.
Proof.
  assert (H : 0 < 5 <= 9) by lia.
  assert (K : 2 ^ Z.log2_up 9 <= max_of U32) by closed_range.
  split; [exact H | split; [exact K | ]].
  exact (RoundToNextPowOfTwo_below_double Undefined U32 5 9 H K).
Defined.

Lemma isPowTwo_RoundToNextPowOfTwo_at_200 :
  is_signed U8 = false /\ in_range U8 200 /\
  exists r, RoundToNextPowOfTwo Undefined U8 200 = Some r /\
            isPowTwo Undefined U8 r = Some true.
Proof.
  assert (H : in_range U8 200) by closed_range.
  split; [reflexivity | split; [exact H | ]].
  exact (isPowTwo_RoundToNextPowOfTwo Undefined U8 200 eq_refl H).
Defined.

Lemma MurmurHash3_64_bijective_uint64 :
  sizeof U64 = 8%nat /\
  (forall h,
     MurmurHash3 Undefined U64 h = Some (conv U64 (mix64 (h mod 2 ^ 64)))) /\
  (forall a b, in_range U64 a -> in_range U64 b ->
     MurmurHash3 Undefined U64 a = MurmurHash3 Undefined U64 b -> a = b) /\
  (forall y, in_range U64 y ->
     exists x, in_range U64 x /\ MurmurHash3 Undefined U64 x = Some y).
Proof.
  split; [reflexivity | ].
  exact (MurmurHash3_64_bijective Undefined U64 eq_refl).
Defined.

Lemma MurmurHash3_zero_iff_int64 :
  (sizeof I64 = 4 \/ sizeof I64 = 8)%nat /\ in_range I64 (-1) /\
  (MurmurHash3 Undefined I64 (-1) = Some 0 <-> -1 = 0).
Proof.
  assert (H : (sizeof I64 = 4 \/ sizeof I64 = 8)%nat) by (right; reflexivity).
  assert (K : in_range I64 (-1)) by closed_range.
  split; [exact H | split; [exact K | ]].
  exact (MurmurHash3_zero_iff Undefined I64 (-1) H K).
Defined.

Lemma clz32_correct_at_16 :
  0 <= 16 < 2 ^ 32 /\
  exists c, clz32 Undefined 16 = Some c /\
            (16 = 0 -> c = 32) /\
            (16 <> 0 -> 0 <= c <= 31 /\ 2 ^ (31 - c) <= 16 < 2 ^ (32 - c)).
Proof.
  assert (H : 0 <= 16 < 2 ^ 32) by lia.
  split; [exact H | ].
  exact (clz32_correct Undefined 16 H).
Defined.

Lemma popcnt32_correct_at_0xF0F1 :
  0 <= 0xF0F1 < 2 ^ 32 /\
  popcnt32 Undefined 0xF0F1 = Some (popcount 0xF0F1).
Proof.
  assert (H : 0 <= 0xF0F1 < 2 ^ 32) by lia.
  split; [exact H | ].
  exact (proj1 (popcnt32_correct Undefined 0xF0F1 H)).
Defined.

Lemma ctz32_clz32_popcnt32_agree_at_40 :
  0 < 40 < 2 ^ 32 /\
  exists t c p,
    ctz32 Undefined 40 = Some t /\ clz32 Undefined 40 = Some c /\
    popcnt32 Undefined 40 = Some p /\
    0 <= t /\ 0 <= c /\ 1 <= p /\ t + p + c <= 32 /\
    40 mod 2 ^ t = 0 /\ 40 < 2 ^ (32 - c) /\
    (p = 1 <-> 40 = 2 ^ t) /\ (p = 1 <-> t + c = 31).
Proof.
  assert (H : 0 < 40 < 2 ^ 32) by lia.
  split; [exact H | ].
  exact (ctz32_clz32_popcnt32_agree Undefined 40 H).
Defined.

Lemma RoundToNextPowOfTwo_negative_int8 :
  min_of I8 < -3 < 0 /\ RoundToNextPowOfTwo Undefined I8 (-3) = Some 0.
Proof.
  assert (H : min_of I8 < -3 < 0) by closed_range.
  split; [exact H | ].
  exact (RoundToNextPowOfTwo_negative Undefined I8 (-3) H).
Defined.

Lemma SLeft_by_exponent_uint8 :
  in_range U8 8 /\ bits U8 <= 8 < 32 /\ SLeft U8 8 = Some 0.
Proof.
  assert (H : in_range U8 8) by closed_range.
  assert (K : bits U8 <= 8 < 32) by (cbn; lia).
  split; [exact H | split; [exact K | ]].
  exact (proj1 (proj2 (SLeft_by_exponent U8 8 H)) K).
Defined.
